(** * Orange Book formulation identity resolution

    A shallow embedding of the equivalence-class registry of [ob.py]
    ([EquivalenceClass], [form_tuple], [parse_strengths]) and of the
    cross-schema matcher of [match_ndc_ob.py], together with the properties
    the specification states about them. *)

From Stdlib Require Import ZArith Lia List Ascii String.
From stdpp Require Import base option list gmap sets strings sorting relations.

#[local] Set Warnings "-clear-no-such-hyp".

Local Open Scope string_scope.
Local Open Scope Z_scope.

(** ** Key types ([ob.py], "DATA STRUCTURES") *)

(** [FormulationTuple = namedtuple("FormulationTuple",
      ["ingredient", "form_route", "strength"])]. *)
Record FormulationTuple : Type := mkFormulationTuple {
  ingredient : string;
  form_route : string;
  strength : string
}.

(** [ApplicationTuple = namedtuple("ApplicationTuple",
      ["appl_no", "product_no"])]. *)
Record ApplicationTuple : Type := mkApplicationTuple {
  appl_no : string;
  product_no : string
}.

#[global] Instance FormulationTuple_eq_dec : EqDecision FormulationTuple.
Proof. solve_decision. Defined.

#[global] Instance ApplicationTuple_eq_dec : EqDecision ApplicationTuple.
Proof. solve_decision. Defined.

#[global] Instance FormulationTuple_countable : Countable FormulationTuple.
Proof.
  refine (inj_countable'
            (fun f => (ingredient f, form_route f, strength f))
            (fun t => mkFormulationTuple t.1.1 t.1.2 t.2) _).
  by intros [].
Defined.

#[global] Instance ApplicationTuple_countable : Countable ApplicationTuple.
Proof.
  refine (inj_countable'
            (fun a => (appl_no a, product_no a))
            (fun t => mkApplicationTuple t.1 t.2) _).
  by intros [].
Defined.

(** A product record of an Orange Book file, with the columns the program
    reads: [row['appl_no']], [row['product_no']], [row['ingredient']],
    [row['df;route']] and [row['strength']]. *)
Record Row : Type := mkRow {
  row_appl_no : string;
  row_product_no : string;
  row_ingredient : string;
  row_df_route : string;
  row_strength : string
}.

(** ** Exceptions

    Nothing in the program catches an exception, so a raise ends the run:
    a failing computation yields the exception alone. *)
Inductive Exn : Type :=
  | AssertionError (msg : string)
  | DifferentLengths (row : Row) (ingredients strengths : list string)
      (* AssertionError(f"Different lengths in {row}: {ingredients},
         {strengths}") *)
  | CantParse (text : string) (exp_len : nat) (row : Row)
      (* RuntimeError(f"Can't parse {text} into {exp_len} elts for {row}") *)
  | KeyError
  | ValueError
  | AttributeError
  | ZeroDivisionError
  | BadReference.  (* a reference to no object: impossible in Python *)

(** ** The registry ([class EquivalenceClass])

    Instances are objects with identity: the class-level dictionaries
    store references to them and [add] compares them with [is].  The
    store [heap] holds every instance ever constructed, live or absorbed. *)
Definition loc := nat.

Record EqClass : Type := mkEqClass {
  form_tuples : gset FormulationTuple;   (* self.form_tuples *)
  app_tuples : gset ApplicationTuple;    (* self.app_tuples *)
  eq_id : option Z                       (* self.eq_id, unset until the
                                            end of __init__ *)
}.

Record Registry : Type := mkRegistry {
  heap : gmap loc EqClass;
  eq_classes : gmap Z loc;                             (* eq_classes = {} *)
  next_eq_id : Z;                                      (* next_eq_id = 0 *)
  form_tuple_classes : gmap FormulationTuple loc;      (* form_tuple_classes = {} *)
  app_tuple_classes : gmap ApplicationTuple loc        (* app_tuple_classes = {} *)
}.

Definition empty_registry : Registry :=
  mkRegistry ∅ ∅ 0 ∅ ∅.

(** State-and-exception monad of the registry operations. *)
Definition M (A : Type) : Type := Registry -> Exn + (A * Registry).

Definition ret {A} (a : A) : M A := fun st => inr (a, st).
Definition bind {A B} (m : M A) (k : A -> M B) : M B :=
  fun st => match m st with
            | inl e => inl e
            | inr (a, st') => k a st'
            end.
Definition raise {A} (e : Exn) : M A := fun _ => inl e.
Definition get_state : M Registry := fun st => inr (st, st).
Definition put_state (st : Registry) : M unit := fun _ => inr (tt, st).

Declare Scope reg_scope.
Delimit Scope reg_scope with reg.
Notation "'do' x <- m ; k" := (bind m (fun x => k))
  (at level 10, x name, m at level 100, k at level 200,
   format "'[v' 'do'  x  <-  m ; '/' k ']'") : reg_scope.
Notation "'exec' m ; k" := (bind m (fun _ => k))
  (at level 10, m at level 100, k at level 200,
   format "'[v' 'exec'  m ; '/' k ']'") : reg_scope.
Local Open Scope reg_scope.

(** [for x in xs: body(x)] *)
Fixpoint for_each {A} (body : A -> M unit) (xs : list A) : M unit :=
  match xs with
  | [] => ret tt
  | x :: xs' => exec body x ; for_each body xs'
  end.

(** Dereference of an instance. *)
Definition deref (self : loc) : M EqClass :=
  fun st => match heap st !! self with
            | Some c => inr (c, st)
            | None => inl BadReference
            end.

Definition set_form_tuples (c : EqClass) (s : gset FormulationTuple) : EqClass :=
  mkEqClass s (app_tuples c) (eq_id c).
Definition set_app_tuples (c : EqClass) (s : gset ApplicationTuple) : EqClass :=
  mkEqClass (form_tuples c) s (eq_id c).
Definition set_eq_id (c : EqClass) (i : Z) : EqClass :=
  mkEqClass (form_tuples c) (app_tuples c) (Some i).

(** Assignments to the instance store and to the class-level attributes. *)
Definition store (self : loc) (c : EqClass) : M unit :=
  fun st => inr (tt, mkRegistry (<[self := c]> (heap st)) (eq_classes st)
                       (next_eq_id st) (form_tuple_classes st)
                       (app_tuple_classes st)).
Definition set_eq_classes (m : gmap Z loc) : M unit :=
  fun st => inr (tt, mkRegistry (heap st) m (next_eq_id st)
                       (form_tuple_classes st) (app_tuple_classes st)).
Definition set_next_eq_id (n : Z) : M unit :=
  fun st => inr (tt, mkRegistry (heap st) (eq_classes st) n
                       (form_tuple_classes st) (app_tuple_classes st)).
Definition set_form_tuple_classes (m : gmap FormulationTuple loc) : M unit :=
  fun st => inr (tt, mkRegistry (heap st) (eq_classes st) (next_eq_id st)
                       m (app_tuple_classes st)).
Definition set_app_tuple_classes (m : gmap ApplicationTuple loc) : M unit :=
  fun st => inr (tt, mkRegistry (heap st) (eq_classes st) (next_eq_id st)
                       (form_tuple_classes st) m).

(** [def add_form_tuple(self, form_tuple)] *)
Definition add_form_tuple (self : loc) (ft : FormulationTuple) : M unit :=
  do st <- get_state ;
  match form_tuple_classes st !! ft with
  | Some _ => raise (AssertionError "Multiple equivalence classes for form tuple")
  | None =>
      exec set_form_tuple_classes (<[ft := self]> (form_tuple_classes st)) ;
      do c <- deref self ;
      store self (set_form_tuples c ({[ft]} ∪ form_tuples c))
  end.

(** [def add_app_tuple(self, app_tuple)] *)
Definition add_app_tuple (self : loc) (at_ : ApplicationTuple) : M unit :=
  do st <- get_state ;
  match app_tuple_classes st !! at_ with
  | Some _ => raise (AssertionError "Multiple equivalence classes for app tuple")
  | None =>
      exec set_app_tuple_classes (<[at_ := self]> (app_tuple_classes st)) ;
      do c <- deref self ;
      store self (set_app_tuples c ({[at_]} ∪ app_tuples c))
  end.

(** [def __init__(self, form_tuples, app_tuples, eq_id = None)]: the new
    instance gets a reference no other instance has. *)
Definition new_class (fts : list FormulationTuple) (ats : list ApplicationTuple)
    (eq_id_arg : option Z) : M loc :=
  do st0 <- get_state ;
  let self : loc := fresh (dom (heap st0)) in
  exec store self (mkEqClass ∅ ∅ None) ;
  exec for_each (add_form_tuple self) fts ;
  exec for_each (add_app_tuple self) ats ;
  do st <- get_state ;
  do i <- match eq_id_arg with
          | None =>
              exec set_next_eq_id (next_eq_id st + 1) ;
              ret (next_eq_id st)
          | Some i =>
              exec set_next_eq_id (Z.max (next_eq_id st) (i + 1)) ;
              ret i
          end ;
  match eq_classes st !! i with
  | Some _ => raise (AssertionError "eq_id not in EquivalenceClass.eq_classes")
  | None =>
      do c <- deref self ;
      exec store self (set_eq_id c i) ;
      exec set_eq_classes (<[i := self]> (eq_classes st)) ;
      ret self
  end.

(** [def append(self, form_tuple, app_tuple)] *)
Definition append (self : loc) (ft : FormulationTuple) (at_ : ApplicationTuple)
    : M unit :=
  do c <- deref self ;
  if decide (at_ ∈ app_tuples c) then
    if decide (ft ∈ form_tuples c) then ret tt
    else add_form_tuple self ft
  else if decide (ft ∈ form_tuples c) then add_app_tuple self at_
  else raise (AssertionError "Neither form nor app tuple matched").

(** [def merge(self, other_eq_class)].  The two loops assign the same
    value [self] to every key of the other class, so the order in which
    the sets are traversed does not show. *)
Definition merge (self other : loc) : M unit :=
  do c <- deref self ;
  do o <- deref other ;
  exec store self (set_form_tuples c (form_tuples c ∪ form_tuples o)) ;
  do o <- deref other ;
  do st <- get_state ;
  exec set_form_tuple_classes
         (set_fold (fun ft m => <[ft := self]> m)
                   (form_tuple_classes st) (form_tuples o)) ;
  do c <- deref self ;
  do o <- deref other ;
  exec store self (set_app_tuples c (app_tuples c ∪ app_tuples o)) ;
  do o <- deref other ;
  do st <- get_state ;
  exec set_app_tuple_classes
         (set_fold (fun a m => <[a := self]> m)
                   (app_tuple_classes st) (app_tuples o)) ;
  do o <- deref other ;
  match eq_id o with
  | None => raise AttributeError
  | Some i =>
      do st <- get_state ;
      match eq_classes st !! i with
      | None => raise KeyError
      | Some _ => set_eq_classes (delete i (eq_classes st))
      end
  end.

(** The argument of [get]: the source dispatches on [type(tup)]. *)
Inductive Tup : Type :=
  | TForm (ft : FormulationTuple)
  | TApp (at_ : ApplicationTuple)
  | TInt (i : Z).

(** [def get(cls, tup)] *)
Definition get (tup : Tup) : M (option loc) :=
  do st <- get_state ;
  match tup with
  | TForm ft => ret (form_tuple_classes st !! ft)
  | TApp a => ret (app_tuple_classes st !! a)
  | TInt i => match eq_classes st !! i with
              | Some l => ret (Some l)
              | None => raise KeyError
              end
  end.

(** [def has(cls, tup)] *)
Definition has (tup : Tup) : M bool :=
  do st <- get_state ;
  match tup with
  | TForm ft => ret (bool_decide (is_Some (form_tuple_classes st !! ft)))
  | TApp a => ret (bool_decide (is_Some (app_tuple_classes st !! a)))
  | TInt _ => raise (AssertionError "Invalid tuple type")
  end.

(** The body of [def add(cls, row)] once [ft, at = form_tuple(row),
    app_tuple(row)] are computed. *)
Definition add_tuples (ft : FormulationTuple) (at_ : ApplicationTuple) : M loc :=
  do ftc <- get (TForm ft) ;
  do atc <- get (TApp at_) ;
  match ftc, atc with
  | None, None => new_class [ft] [at_] None
  | Some ftc, None => exec append ftc ft at_ ; ret ftc
  | None, Some atc => exec append atc ft at_ ; ret atc
  | Some ftc, Some atc =>
      if decide (atc = ftc) then exec append ftc ft at_ ; ret ftc
      else exec merge ftc atc ; exec append ftc ft at_ ; ret ftc
  end.

(** ** Well-formed registries *)

(** A key of either kind. *)
Definition Key : Type := FormulationTuple + ApplicationTuple.

(** The instance a key is registered to: [get] on either dictionary. *)
Definition class_of (st : Registry) (k : Key) : option loc :=
  match k with
  | inl ft => form_tuple_classes st !! ft
  | inr a => app_tuple_classes st !! a
  end.

(** Membership of a key in an instance's own sets. *)
Definition member (c : EqClass) (k : Key) : Prop :=
  match k with
  | inl ft => ft ∈ form_tuples c
  | inr a => a ∈ app_tuples c
  end.

(** The instance at [l] is registered in [eq_classes] under its id. *)
Definition live (st : Registry) (l : loc) (c : EqClass) : Prop :=
  heap st !! l = Some c ∧
  ∃ i, eq_id c = Some i ∧ eq_classes st !! i = Some l.

Record wf (st : Registry) : Prop := mk_wf {
  (* every registered id names an instance that carries this id *)
  wf_classes : ∀ i l, eq_classes st !! i = Some l →
                 ∃ c, heap st !! l = Some c ∧ eq_id c = Some i;
  (* the key dictionaries and the membership sets of the live instances
     say the same thing *)
  wf_keys : ∀ k l, class_of st k = Some l ↔ ∃ c, live st l c ∧ member c k;
  (* every id ever given out is below the counter *)
  wf_next : ∀ l c i, heap st !! l = Some c → eq_id c = Some i →
              i < next_eq_id st;
  (* no two instances, live or absorbed, carry the same id *)
  wf_ids : ∀ l1 l2 c1 c2 i,
              heap st !! l1 = Some c1 → heap st !! l2 = Some c2 →
              eq_id c1 = Some i → eq_id c2 = Some i → l1 = l2;
  (* every instance has been fully constructed *)
  wf_init : ∀ l c, heap st !! l = Some c → is_Some (eq_id c)
}.

(** Two keys are co-members when they are registered to the same instance. *)
Definition co_member (st : Registry) (k1 k2 : Key) : Prop :=
  ∃ l, class_of st k1 = Some l ∧ class_of st k2 = Some l.

(** The state [merge] leaves when it absorbs [other], registered under
    [i], into a different instance [self]. *)
Definition merged (st : Registry) (self : loc) (c o : EqClass) (i : Z)
    : Registry :=
  mkRegistry
    (<[self := mkEqClass (form_tuples c ∪ form_tuples o)
                 (app_tuples c ∪ app_tuples o) (eq_id c)]> (heap st))
    (delete i (eq_classes st)) (next_eq_id st)
    (set_fold (fun ft m => <[ft := self]> m) (form_tuple_classes st)
              (form_tuples o))
    (set_fold (fun a m => <[a := self]> m) (app_tuple_classes st)
              (app_tuples o)).

#[global] Instance member_dec c k : Decision (member c k).
Proof. destruct k; simpl; apply _. Defined.

(** The id [__init__] picks and the counter it leaves. *)
Definition chosen_id (st : Registry) (eq_id_arg : option Z) : Z * Z :=
  match eq_id_arg with
  | None => (next_eq_id st, next_eq_id st + 1)
  | Some i => (i, Z.max (next_eq_id st) (i + 1))
  end.

(** The state a successful [__init__] leaves. *)
Definition created (st : Registry) (fts : list FormulationTuple)
    (ats : list ApplicationTuple) (i next : Z) : Registry :=
  let self := fresh (dom (heap st)) in
  mkRegistry
    (<[self := mkEqClass (list_to_set fts) (list_to_set ats) (Some i)]> (heap st))
    (<[i := self]> (eq_classes st)) next
    (foldl (fun m ft => <[ft := self]> m) (form_tuple_classes st) fts)
    (foldl (fun m a => <[a := self]> m) (app_tuple_classes st) ats).

(** *** The effect of [add] on the key dictionaries *)

(** The keys that end up with the record [(ft, a)]: its two keys and the
    keys registered with either of them. *)
Definition linked (st : Registry) (ft : FormulationTuple)
    (a : ApplicationTuple) (k : Key) : Prop :=
  k = inl ft ∨ k = inr a ∨
  (is_Some (class_of st k) ∧
   (class_of st k = class_of st (inl ft) ∨ class_of st k = class_of st (inr a))).

#[global] Instance linked_dec st ft a k : Decision (linked st ft a k).
Proof. unfold linked. apply _. Defined.

(** ** Ingestion of a sequence of records

    [summarize] feeds every product record to [add]:
    [for row in prodreader: EquivalenceClass.add(row)].  A record is taken
    here as the pair of keys [form_tuple(row), app_tuple(row)]. *)
Fixpoint add_all (rs : list (FormulationTuple * ApplicationTuple)) : M unit :=
  match rs with
  | [] => ret tt
  | r :: rs' => exec add_tuples r.1 r.2 ; add_all rs'
  end.

(** Two keys occur on one input record. *)
Definition cooccur (rs : list (FormulationTuple * ApplicationTuple))
    (k1 k2 : Key) : Prop :=
  ∃ ft a, (ft, a) ∈ rs ∧ (k1 = inl ft ∨ k1 = inr a) ∧ (k2 = inl ft ∨ k2 = inr a).

(** Two keys are in the membership sets of one live instance. *)
Definition same_class (st : Registry) (k1 k2 : Key) : Prop :=
  ∃ l c, live st l c ∧ member c k1 ∧ member c k2.

(** ** The operations on the registry, as one type *)
Inductive Op : Type :=
  | OpCreate (fts : list FormulationTuple) (ats : list ApplicationTuple)
             (eq_id_arg : option Z)                 (* EquivalenceClass(...) *)
  | OpAppend (self : loc) (ft : FormulationTuple) (a : ApplicationTuple)
  | OpMerge (self other : loc)
  | OpAdd (ft : FormulationTuple) (a : ApplicationTuple).

Definition run_op (op : Op) : M unit :=
  match op with
  | OpCreate fts ats eq_id_arg => do _x <- new_class fts ats eq_id_arg ; ret tt
  | OpAppend self ft a => append self ft a
  | OpMerge self other => merge self other
  | OpAdd ft a => do _x <- add_tuples ft a ; ret tt
  end.

(** The id has been carried by no instance so far, live or absorbed. *)
Definition never_allocated (st : Registry) (i : Z) : Prop :=
  ∀ l c, heap st !! l = Some c → eq_id c ≠ Some i.

Definition is_live (st : Registry) (l : loc) : Prop := ∃ c, live st l c.

(** The way [add] and [load_summary] use the operations: methods are
    called on registered instances, [merge] on two different ones, and an
    explicit [eq_id] is one that was never given out. *)
Definition op_pre (st : Registry) (op : Op) : Prop :=
  match op with
  | OpCreate _ _ None => True
  | OpCreate _ _ (Some i) => never_allocated st i
  | OpAppend self _ _ => is_live st self
  | OpMerge self other => is_live st self ∧ is_live st other ∧ self ≠ other
  | OpAdd _ _ => True
  end.

(** Each key is in the sets of at most one live instance. *)
Definition keys_exclusive (st : Registry) : Prop :=
  ∀ k l1 c1 l2 c2,
    live st l1 c1 → member c1 k → live st l2 c2 → member c2 k → l1 = l2.

(** ** Sorting

    [sorted] on a list whose elements are compared by a total order; two
    elements that compare equal both ways are then the same element, so
    the sorted list does not depend on the algorithm. *)
Fixpoint insert_sorted {A} (leb : A -> A -> bool) (x : A) (l : list A) : list A :=
  match l with
  | [] => [x]
  | y :: l' => if leb x y then x :: y :: l' else y :: insert_sorted leb x l'
  end.
Definition py_sorted {A} (leb : A -> A -> bool) (l : list A) : list A :=
  foldr (insert_sorted leb) [] l.

(** ** Serialization ([to_dict], [summarize], [load_summary]) *)

(** Python compares named tuples field by field and strings by code
    point. *)
Definition FormulationTuple_leb (x y : FormulationTuple) : bool :=
  match String.compare (ingredient x) (ingredient y) with
  | Lt => true
  | Gt => false
  | Eq =>
      match String.compare (form_route x) (form_route y) with
      | Lt => true
      | Gt => false
      | Eq => String.leb (strength x) (strength y)
      end
  end.

Definition ApplicationTuple_leb (x y : ApplicationTuple) : bool :=
  match String.compare (appl_no x) (appl_no y) with
  | Lt => true
  | Gt => false
  | Eq => String.leb (product_no x) (product_no y)
  end.

(** [sorted(self.form_tuples)] and [sorted(self.app_tuples)] *)
Definition sorted_form_tuples (s : gset FormulationTuple) : list FormulationTuple :=
  py_sorted FormulationTuple_leb (elements s).
Definition sorted_app_tuples (s : gset ApplicationTuple) : list ApplicationTuple :=
  py_sorted ApplicationTuple_leb (elements s).

(** One entry of [equivalents.json]. *)
Record ClassRecord : Type := mkClassRecord {
  r_eq_id : Z;
  r_form_tuples : list FormulationTuple;
  r_app_tuples : list ApplicationTuple
}.

(** [def to_dict(self)] *)
Definition to_dict (c : EqClass) : option ClassRecord :=
  match eq_id c with
  | Some i => Some (mkClassRecord i (sorted_form_tuples (form_tuples c))
                                    (sorted_app_tuples (app_tuples c)))
  | None => None
  end.

(** [def all(cls)]: the values of [eq_classes]. *)
Definition all (st : Registry) : list loc := (map_to_list (eq_classes st)).*2.

(** [eq_class.to_dict()] on a reference. *)
Definition record_at (st : Registry) (l : loc) : option ClassRecord :=
  c ← heap st !! l; to_dict c.

(** [[ eq_class.to_dict() for eq_class in EquivalenceClass.all() ]] *)
Definition dump (st : Registry) : option (list ClassRecord) :=
  mapM (record_at st) (all st).

(** The loop of [load_summary]. *)
Fixpoint load_records (rs : list ClassRecord) : M unit :=
  match rs with
  | [] => ret tt
  | r :: rs' =>
      do _x <- new_class (r_form_tuples r) (r_app_tuples r) (Some (r_eq_id r)) ;
      load_records rs'
  end.

(** [def load_summary()], the part on equivalence classes. *)
Definition load_summary (rs : list ClassRecord) : M unit :=
  do st <- get_state ;
  if decide (size (eq_classes st) = 0%nat) then load_records rs else ret tt.

(** The members registered under a class id. *)
Definition members_of (st : Registry) (i : Z)
    : option (gset FormulationTuple * gset ApplicationTuple) :=
  l ← eq_classes st !! i; c ← heap st !! l;
  Some (form_tuples c, app_tuples c).

(** The id of the class a key is registered to. *)
Definition id_of (st : Registry) (k : Key) : option Z :=
  l ← class_of st k; c ← heap st !! l; eq_id c.

(** ** Sample keys and records *)
Definition ex_f1 : FormulationTuple :=
  mkFormulationTuple "A" "T;O" "1".
Definition ex_f2 : FormulationTuple :=
  mkFormulationTuple "B" "T;O" "2".
Definition ex_a1 : ApplicationTuple := mkApplicationTuple "N1" "1".
Definition ex_a2 : ApplicationTuple := mkApplicationTuple "N2" "1".

(** The registry after the records [(f1, a1)] and [(f2, a2)]. *)
Definition ex_two_classes : Registry :=
  match add_all [(ex_f1, ex_a1); (ex_f2, ex_a2)] empty_registry with
  | inr (_, st) => st
  | inl _ => empty_registry
  end.

(** ... and after the record [(f1, a2)] on top, which merges the two. *)
Definition ex_merged : Registry :=
  match add_tuples ex_f1 ex_a2 ex_two_classes with
  | inr (_, st) => st
  | inl _ => empty_registry
  end.

(** ** Texts and the [re] patterns the program uses

    A Python [str] is modelled by a [string]; the characters considered are
    those of the ASCII range, which is what the data files hold.  The
    matcher below follows Python's backtracking order: a greedy repeat tries
    the longest run first, a lazy one the shortest, and the first overall
    success is the match. *)
Definition Text : Type := list ascii.

Definition text_of (s : string) : Text := list_ascii_of_string s.
Definition of_text (t : Text) : string := string_of_list_ascii t.

Definition nat_in_range (lo hi n : nat) : bool :=
  (Nat.leb lo n && Nat.leb n hi)%bool.

(** [\d], [\w] and [\s] on ASCII characters. *)
Definition is_digit (a : ascii) : bool :=
  nat_in_range 48 57 (nat_of_ascii a).
Definition is_word (a : ascii) : bool :=
  let n := nat_of_ascii a in
  (nat_in_range 48 57 n || nat_in_range 65 90 n || nat_in_range 97 122 n
   || Nat.eqb n 95)%bool.
Definition is_space (a : ascii) : bool :=
  let n := nat_of_ascii a in
  (nat_in_range 9 13 n || nat_in_range 28 32 n)%bool.
Definition newline : ascii := ascii_of_nat 10.

(** One-character items of a pattern. *)
Inductive cls : Type :=
  | CAny                 (* .  : anything but a newline *)
  | CSpace               (* \s *)
  | CWord                (* \w *)
  | CDigit               (* \d *)
  | CChar (c : ascii).   (* a literal character *)

Definition cls_match (c : cls) (a : ascii) : bool :=
  match c with
  | CAny => negb (Ascii.eqb a newline)
  | CSpace => is_space a
  | CWord => is_word a
  | CDigit => is_digit a
  | CChar c => Ascii.eqb a c
  end.

(** The patterns: repeats apply to one-character items only, which is all
    the program's patterns need. *)
Inductive re : Type :=
  | RChar (c : cls)              (* c *)
  | RStar (c : cls)              (* c*   greedy *)
  | RLazy (c : cls)              (* c*?  lazy *)
  | RPlus (c : cls)              (* c+   greedy *)
  | RSeq (r1 r2 : re)            (* r1 r2 *)
  | ROpt (r : re)                (* (?:r)? *)
  | RGroup (n : nat) (r : re)    (* ( r ), group number n *)
  | REmpty                       (* the empty pattern *)
  | RBol                         (* ^ *)
  | REol                         (* $ *)
  | RNotAfter (c : ascii).       (* (?<!c) *)

Infix "@@" := RSeq (at level 60, right associativity).

(** A literal text as a pattern. *)
Fixpoint RText (t : Text) : re :=
  match t with
  | [] => REmpty
  | a :: t' => RChar (CChar a) @@ RText t'
  end.
Definition RLit (s : string) : re := RText (list_ascii_of_string s).

Section Matcher.
Context {A : Type}.

(** In [pre] the text before the current position, last character first;
    in [s] the text from the current position on. *)
Fixpoint star_greedy (c : cls) (pre s : Text)
    (k : Text -> Text -> option A) : option A :=
  match s with
  | a :: s' =>
      if cls_match c a then
        match star_greedy c (a :: pre) s' k with
        | Some r => Some r
        | None => k pre s
        end
      else k pre s
  | [] => k pre s
  end.

Fixpoint star_lazy (c : cls) (pre s : Text)
    (k : Text -> Text -> option A) : option A :=
  match k pre s with
  | Some r => Some r
  | None =>
      match s with
      | a :: s' => if cls_match c a then star_lazy c (a :: pre) s' k else None
      | [] => None
      end
  end.

Fixpoint match_re (r : re) (pre s : Text) (g : gmap nat Text)
    (k : Text -> Text -> gmap nat Text -> option A) : option A :=
  match r with
  | RChar c =>
      match s with
      | a :: s' => if cls_match c a then k (a :: pre) s' g else None
      | [] => None
      end
  | RStar c => star_greedy c pre s (fun pre' s' => k pre' s' g)
  | RLazy c => star_lazy c pre s (fun pre' s' => k pre' s' g)
  | RPlus c =>
      match s with
      | a :: s' =>
          if cls_match c a
          then star_greedy c (a :: pre) s' (fun pre' s' => k pre' s' g)
          else None
      | [] => None
      end
  | RSeq r1 r2 =>
      match_re r1 pre s g (fun pre' s' g' => match_re r2 pre' s' g' k)
  | ROpt r1 =>
      match match_re r1 pre s g k with
      | Some x => Some x
      | None => k pre s g
      end
  | RGroup n r1 =>
      match_re r1 pre s g
        (fun pre' s' g' =>
           k pre' s'
             (<[n := rev (take (length pre' - length pre) pre')]> g'))
  | REmpty => k pre s g
  | RBol => match pre with [] => k pre s g | _ :: _ => None end
  | REol =>
      match s with
      | [] => k pre s g
      | [a] => if Ascii.eqb a newline then k pre s g else None
      | _ => None
      end
  | RNotAfter c =>
      match pre with
      | a :: _ => if Ascii.eqb a c then None else k pre s g
      | [] => k pre s g
      end
  end.
End Matcher.

(** A match: its text [m.group(0)] and its groups. *)
Record Match : Type := mkMatch {
  m_text : Text;
  m_groups : gmap nat Text
}.

(** The match of [r] that starts at the current position, if any. *)
Definition match_here (r : re) (pre s : Text) : option Match :=
  match_re r pre s ∅
    (fun pre' _ g => Some (mkMatch (rev (take (length pre' - length pre) pre')) g)).

(** [re.search(r, s)]: the match at the leftmost position that has one. *)
Fixpoint search_from (r : re) (pre s : Text) : option Match :=
  match match_here r pre s with
  | Some m => Some m
  | None =>
      match s with
      | a :: s' => search_from r (a :: pre) s'
      | [] => None
      end
  end.
Definition re_search (r : re) (s : string) : option Match :=
  search_from r [] (text_of s).

(** [re.match(r, s)]: a match at the start only. *)
Definition re_match (r : re) (s : string) : option Match :=
  match_here r [] (text_of s).

(** [m[n]] *)
Definition group (m : Match) (n : nat) : string :=
  of_text (default [] (m_groups m !! n)).

(** The scans below go through the text once; [skip] counts the characters
    of the last match that are still to be passed over.  None of the
    program's patterns matches the empty text; an empty match is treated
    as no match. *)
Fixpoint findall_from (r : re) (pre s : Text) (skip : nat) : list Text :=
  match s with
  | [] => []
  | a :: s' =>
      match skip with
      | S n => findall_from r (a :: pre) s' n
      | O =>
          match match_here r pre s with
          | Some m =>
              match length (m_text m) with
              | O => findall_from r (a :: pre) s' 0
              | S n => m_text m :: findall_from r (a :: pre) s' n
              end
          | None => findall_from r (a :: pre) s' 0
          end
      end
  end.

(** [re.findall(r, s)] for a pattern without groups; also the texts of
    [re.finditer(r, s)]. *)
Definition re_findall (r : re) (s : string) : list string :=
  of_text <$> findall_from r [] (text_of s) 0.

(** [cur] is the piece being collected, last character first. *)
Fixpoint split_from (r : re) (pre s : Text) (skip : nat) (cur : Text)
    : list Text :=
  match s with
  | [] => [rev cur]
  | a :: s' =>
      match skip with
      | S n => split_from r (a :: pre) s' n cur
      | O =>
          match match_here r pre s with
          | Some m =>
              match length (m_text m) with
              | O => split_from r (a :: pre) s' 0 (a :: cur)
              | S n => rev cur :: split_from r (a :: pre) s' n []
              end
          | None => split_from r (a :: pre) s' 0 (a :: cur)
          end
      end
  end.

(** [re.split(r, s)] for a pattern without groups. *)
Definition re_split (r : re) (s : string) : list string :=
  of_text <$> split_from r [] (text_of s) 0 [].

Fixpoint sub_from (r : re) (repl : Text) (pre s : Text) (skip : nat) : Text :=
  match s with
  | [] => []
  | a :: s' =>
      match skip with
      | S n => sub_from r repl (a :: pre) s' n
      | O =>
          match match_here r pre s with
          | Some m =>
              match length (m_text m) with
              | O => a :: sub_from r repl (a :: pre) s' 0
              | S n => (repl ++ sub_from r repl (a :: pre) s' n)%list
              end
          | None => a :: sub_from r repl (a :: pre) s' 0
          end
      end
  end.

(** [re.sub(r, repl, s)] for a replacement without group references. *)
Definition re_sub (r : re) (repl : string) (s : string) : string :=
  of_text (sub_from r (text_of repl) [] (text_of s) 0).

(** ** String and list helpers of Python *)

(** [sep.join(xs)] *)
Fixpoint join (sep : string) (xs : list string) : string :=
  match xs with
  | [] => ""
  | [x] => x
  | x :: xs' => (x ++ sep ++ join sep xs')%string
  end.

(** [s.split(c)] for a one-character separator; [cur] is the piece being
    collected, last character first. *)
Fixpoint split_text (c : ascii) (s : Text) (cur : Text) : list Text :=
  match s with
  | [] => [rev cur]
  | a :: s' =>
      if Ascii.eqb a c then rev cur :: split_text c s' []
      else split_text c s' (a :: cur)
  end.
Definition str_split (c : ascii) (s : string) : list string :=
  of_text <$> split_text c (text_of s) [].

(** [s.split(c, 1)]: at the first separator only. *)
Fixpoint split1_text (c : ascii) (s : Text) (cur : Text) : list Text :=
  match s with
  | [] => [rev cur]
  | a :: s' =>
      if Ascii.eqb a c then [rev cur; s'] else split1_text c s' (a :: cur)
  end.
Definition str_split1 (c : ascii) (s : string) : list string :=
  of_text <$> split1_text c (text_of s) [].

(** [zip] applied to the rows as its arguments: the columns, as many as
    the shortest row has. *)
Definition min_length {A} (rows : list (list A)) : nat :=
  match rows with
  | [] => 0
  | r :: rows' => foldr (fun r' n => Nat.min (length r') n) (length r) rows'
  end.
Definition zip_star {A} (rows : list (list A)) : list (list A) :=
  (fun i => omap (fun r => r !! i) rows) <$> seq 0 (min_length rows).

(** [range(0, stop, step)] for a positive [step]. *)
Definition range_step (stop step : nat) : list nat :=
  (fun j => j * step)%nat <$> seq 0 (Nat.div (stop + step - 1) step).

(** [xs[i:j]] *)
Definition slice {A} (xs : list A) (i j : nat) : list A :=
  take (j - i) (drop i xs).

(** [xs * n] *)
Definition list_times {A} (xs : list A) (n : nat) : list A :=
  mjoin (replicate n xs).

(** Tuples of two strings are compared field by field. *)
Definition pair_leb (x y : string * string) : bool :=
  match String.compare x.1 y.1 with
  | Lt => true
  | Gt => false
  | Eq => String.leb x.2 y.2
  end.

(** ** Keys of a record ([app_tuple], [form_tuple], [parse_strengths]) *)

(** [def app_tuple(row)] *)
Definition app_tuple (row : Row) : ApplicationTuple :=
  mkApplicationTuple (row_appl_no row) (row_product_no row).

(** The pattern: a blank, two escaped stars, Federal Register, then [.*$]. *)
Definition federal_register_re : re :=
  RLit " **Federal Register" @@ RStar CAny @@ REol.

(** The pattern [^(G1)\s*\((G2)\)] with G1 = [.*;.*?] and G2 = [.*;.*]. *)
Definition paren_re : re :=
  RBol @@ RGroup 1 (RStar CAny @@ RChar (CChar ";") @@ RLazy CAny)
       @@ RStar CSpace @@ RChar (CChar "(")
       @@ RGroup 2 (RStar CAny @@ RChar (CChar ";") @@ RStar CAny)
       @@ RChar (CChar ")").

(** The pattern [;\s*]. *)
Definition semicolon_re : re := RChar (CChar ";") @@ RStar CSpace.

Definition special_strength : string :=
  "250.0MG;12.5MG;75.0MG;EQ 250MG BASE,N/A,N/A,N/A; N/A,12.5MG,75MG,50MG".

(** [def parse_strengths(text, exp_len, row)] *)
Definition parse_strengths (text : string) (exp_len : nat) (row : Row)
    : Exn + list string :=
  let text := re_sub federal_register_re "" text in
  if decide (text = special_strength) then
    inr ["250MG"; "12.5MG"; "75MG"; "50MG"]
  else
    match re_search paren_re text with
    | Some m =>
        inr ((fun ab => (ab.1 ++ " (" ++ ab.2 ++ ")")%string)
               <$> zip (re_split semicolon_re (group m 1))
                       (re_split semicolon_re (group m 2)))
    | None =>
        let elts := re_split semicolon_re text in
        if decide (length elts = exp_len ∨ exp_len = 1%nat) then inr elts
        else
          let relts := join ", " <$> zip_star (str_split "," <$> elts) in
          if decide (length relts = exp_len) then inr relts
          else
            match exp_len with
            | O => inl ZeroDivisionError
            | S _ =>
                if decide (Nat.modulo (length elts) exp_len = 0%nat) then
                  match Nat.div (length elts) exp_len with
                  | O => inl ValueError   (* range() arg 3 must not be zero *)
                  | S _ as step =>
                      inr ((fun i => join ", " (slice elts i (i + exp_len)))
                             <$> range_step (length elts) step)
                  end
                else inl (CantParse text exp_len row)
            end
    end.

(** [def form_tuple(row)] *)
Definition form_tuple (row : Row) : Exn + FormulationTuple :=
  let form_route := re_sub (RLit "; ") ";" (row_df_route row) in
  let ingredients := re_split semicolon_re (row_ingredient row) in
  match parse_strengths (row_strength row) (length ingredients) row with
  | inl e => inl e
  | inr strengths =>
      let ingredients :=
        if decide (length ingredients = 1%nat)
        then list_times ingredients (length strengths)
        else ingredients in
      if decide (length ingredients ≠ length strengths) then
        inl (DifferentLengths row ingredients strengths)
      else
        match py_sorted pair_leb (zip ingredients strengths) with
        | [] => inl ValueError   (* the unpacking of an empty zip *)
        | ps => inr (mkFormulationTuple (join "; " ps.*1) form_route
                       (join "; " ps.*2))
        end
  end.

(** [def add(cls, row)] *)
Definition add (row : Row) : M loc :=
  match form_tuple row with
  | inl e => raise e
  | inr ft => add_tuples ft (app_tuple row)
  end.

(** A record with one ingredient and two strengths. *)
Definition ex_row_single : Row :=
  mkRow "N020304" "001" "ESTRADIOL" "TABLET; ORAL" "2MG;1MG".

(** [def __len__(cls)] *)
Definition len_classes (st : Registry) : nat := size (eq_classes st).

(** ** Python dictionaries that keep insertion order

    A [dict] whose order can be observed is a list of entries with distinct
    keys, in the order the keys were first inserted. *)
Section PyDict.
Context {K V : Type} `{EqDecision K}.

Definition pydict : Type := list (K * V).

(** [d.get(k)], also [k in d] and [d[k]] *)
Fixpoint dict_get (k : K) (d : pydict) : option V :=
  match d with
  | [] => None
  | (k', v) :: d' => if decide (k = k') then Some v else dict_get k d'
  end.

(** The entry of [k] becomes [f] of its old value, in place; a new key is
    added at the end. *)
Fixpoint dict_upsert (f : option V -> V) (k : K) (d : pydict) : pydict :=
  match d with
  | [] => [(k, f None)]
  | (k', v) :: d' =>
      if decide (k = k') then (k', f (Some v)) :: d'
      else (k', v) :: dict_upsert f k d'
  end.

(** [d[k] = v] *)
Definition dict_set (k : K) (v : V) (d : pydict) : pydict :=
  dict_upsert (fun _ => v) k d.

(** [d.keys()] *)
Definition dict_keys (d : pydict) : list K := d.*1.
End PyDict.

Arguments pydict : clear implicits.

(** [d.setdefault(k, []).append(x)] *)
Definition dict_setdefault_append {K V} `{EqDecision K} (k : K) (x : V)
    (d : pydict K (list V)) : pydict K (list V) :=
  dict_upsert (fun o => default [] o ++ [x])%list k d.

(** ** Aggregation and indexed tables ([agg.py]) *)
Section Agg.
Context {A B K : Type} `{EqDecision K}.

(** [def aggregate(iterable, proc, proc2 = None, postproc = None)] without
    [postproc]; [proc2 = None] is the identity. *)
Definition aggregate (proc : A -> K) (proc2 : A -> B) (items : list A)
    : pydict K (list B) :=
  foldl (fun res item => dict_setdefault_append (proc item) (proc2 item) res)
        [] items.

(** [def aggregate_multi(iterable, proc)] *)
Definition aggregate_multi (proc : A -> list K) (items : list A)
    : pydict K (list A) :=
  foldl (fun res item =>
           foldl (fun res' idx => dict_setdefault_append idx item res')
                 res (proc item))
        [] items.
End Agg.

(** The [postproc] step of [aggregate]. *)
Definition aggregate_post {A B C K : Type} `{EqDecision K}
    (proc : A -> K) (proc2 : A -> B) (postproc : list B -> C)
    (items : list A) : pydict K C :=
  (fun kv => (kv.1, postproc kv.2)) <$> aggregate proc proc2 items.

Section Table.
Context {A K : Type} `{EqDecision K}.

(** [class Table]: the rows, the indexes by name, and the functions the
    indexes were built with.  Index functions are taken to be total. *)
Record Table : Type := mkTable {
  t_data : list A;
  t_indexes : pydict string (pydict K (list A));
  t_procs : pydict string (A -> K);
  t_multi_procs : pydict string (A -> list K)
}.

(** [def __init__(self, data)] *)
Definition table_new (data : list A) : Table := mkTable data [] [] [].

(** [def index(self, idx_name, func)] *)
Definition table_index (idx_name : string) (func : A -> K) (t : Table) : Table :=
  mkTable (t_data t)
    (dict_set idx_name (aggregate func id (t_data t)) (t_indexes t))
    (dict_set idx_name func (t_procs t))
    (t_multi_procs t).

(** [def index_multi(self, idx_name, func)] *)
Definition table_index_multi (idx_name : string) (func : A -> list K)
    (t : Table) : Table :=
  mkTable (t_data t)
    (dict_set idx_name (aggregate_multi func (t_data t)) (t_indexes t))
    (t_procs t)
    (dict_set idx_name func (t_multi_procs t)).

(** [self.indexes[idx_name].setdefault(item, []).append(row)] *)
Definition index_add (idx_name : string) (item : K) (row : A)
    (ix : pydict string (pydict K (list A)))
    : Exn + pydict string (pydict K (list A)) :=
  match dict_get idx_name ix with
  | None => inl KeyError
  | Some idx => inr (dict_set idx_name (dict_setdefault_append item row idx) ix)
  end.

(** The two loops of [append]. *)
Fixpoint append_procs (ps : list (string * (A -> K))) (row : A)
    (ix : pydict string (pydict K (list A)))
    : Exn + pydict string (pydict K (list A)) :=
  match ps with
  | [] => inr ix
  | (idx_name, proc) :: ps' =>
      match index_add idx_name (proc row) row ix with
      | inl e => inl e
      | inr ix' => append_procs ps' row ix'
      end
  end.

Fixpoint append_items (idx_name : string) (items : list K) (row : A)
    (ix : pydict string (pydict K (list A)))
    : Exn + pydict string (pydict K (list A)) :=
  match items with
  | [] => inr ix
  | item :: items' =>
      match index_add idx_name item row ix with
      | inl e => inl e
      | inr ix' => append_items idx_name items' row ix'
      end
  end.

Fixpoint append_multi_procs (ps : list (string * (A -> list K))) (row : A)
    (ix : pydict string (pydict K (list A)))
    : Exn + pydict string (pydict K (list A)) :=
  match ps with
  | [] => inr ix
  | (idx_name, proc) :: ps' =>
      match append_items idx_name (proc row) row ix with
      | inl e => inl e
      | inr ix' => append_multi_procs ps' row ix'
      end
  end.

(** [def append(self, row)] *)
Definition table_append (row : A) (t : Table) : Exn + Table :=
  match append_procs (t_procs t) row (t_indexes t) with
  | inl e => inl e
  | inr ix =>
      match append_multi_procs (t_multi_procs t) row ix with
      | inl e => inl e
      | inr ix' =>
          inr (mkTable (t_data t ++ [row]) ix' (t_procs t) (t_multi_procs t))
      end
  end.

(** [def get(self, idx_name, value)] *)
Definition table_get (idx_name : string) (value : K) (t : Table)
    : Exn + list A :=
  match dict_get idx_name (t_indexes t) with
  | None => inl KeyError
  | Some idx => inr (default [] (dict_get value idx))
  end.



(** [def indexed_values(self, idx_name)] *)
Definition table_indexed_values (idx_name : string) (t : Table)
    : Exn + list K :=
  match dict_get idx_name (t_indexes t) with
  | None => inl KeyError
  | Some idx => inr (dict_keys idx)
  end.
End Table.

Arguments Table : clear implicits.

Section TableInvariant.
Context {A K : Type} `{EqDecision K}.

(** Every index function has its index, and no name is listed twice. *)
Definition table_ok (t : Table A K) : Prop :=
  NoDup (dict_keys (t_procs t)) ∧ NoDup (dict_keys (t_multi_procs t)) ∧
  NoDup (dict_keys (t_indexes t)) ∧
  (∀ name, name ∈ dict_keys (t_procs t) → name ∈ dict_keys (t_indexes t)) ∧
  (∀ name, name ∈ dict_keys (t_multi_procs t) →
           name ∈ dict_keys (t_indexes t)).

(** The index [idx_name] is the one [index] builds with [func] from the
    rows of the table. *)
Definition indexed_by (idx_name : string) (func : A -> K) (t : Table A K)
    : Prop :=
  dict_get idx_name (t_procs t) = Some func ∧
  dict_get idx_name (t_multi_procs t) = None ∧
  dict_get idx_name (t_indexes t) = Some (aggregate func id (t_data t)).
End TableInvariant.

(** A small table: numbers indexed by their remainder modulo 3. *)
Definition ex_table : Table nat nat :=
  table_index "mod3" (fun n => n mod 3)%nat (table_new [1; 2; 3; 4; 5]%nat).

(** ** Writing unique rows ([csvplus.UniqueRowWriter])

    The file is the list of the rows handed to the csv writer so far. *)
Record Writer : Type := mkWriter {
  w_header : option (list string);      (* self.header *)
  w_cache : gset (list string);         (* self.cache *)
  w_file : list (list string)           (* what self.writer has written *)
}.

(** [__init__] and [__enter__] *)
Definition writer_new : Writer := mkWriter None ∅ [].

(** [def write_header(self, header)] *)
Definition write_header (header : list string) (w : Writer) : Writer :=
  mkWriter (Some header) (w_cache w) (w_file w ++ [header]).

(** [def writerow(self, row)] *)
Definition writerow (row : list string) (w : Writer) : Exn + Writer :=
  match w_header w with
  | None => inl (AssertionError "self.header is not None")
  | Some header =>
      if decide (length row = length header) then
        if decide (row ∈ w_cache w) then inr w
        else inr (mkWriter (w_header w) ({[row]} ∪ w_cache w)
                           (w_file w ++ [row]))
      else inl (AssertionError "len(row) == len(self.header)")
  end.

(** [for row in rows: writer.writerow(row)] *)
Fixpoint writerows (rows : list (list string)) (w : Writer) : Exn + Writer :=
  match rows with
  | [] => inr w
  | row :: rows' =>
      match writerow row w with
      | inl e => inl e
      | inr w' => writerows rows' w'
      end
  end.

(** ** Orders on keys, as relations *)
Definition string_le (x y : string) : Prop := String.leb x y = true.
Definition pair_le (x y : string * string) : Prop := pair_leb x y = true.
Definition FormulationTuple_le (x y : FormulationTuple) : Prop :=
  FormulationTuple_leb x y = true.
Definition ApplicationTuple_le (x y : ApplicationTuple) : Prop :=
  ApplicationTuple_leb x y = true.

(** [def one_form_tuple(self)]: [sorted(self.form_tuples)[0]]; [None] stands
    for the [IndexError] of an empty list. *)
Definition one_form_tuple (c : EqClass) : option FormulationTuple :=
  head (sorted_form_tuples (form_tuples c)).

(** The pairs [form_tuple] sorts: the parsed ingredients and strengths, a
    single ingredient being repeated once per strength. *)
Definition parsed_pairs (row : Row) : Exn + list (string * string) :=
  let ingredients := re_split semicolon_re (row_ingredient row) in
  match parse_strengths (row_strength row) (length ingredients) row with
  | inl e => inl e
  | inr strengths =>
      let ingredients :=
        if decide (length ingredients = 1%nat)
        then list_times ingredients (length strengths)
        else ingredients in
      if decide (length ingredients ≠ length strengths) then
        inl (DifferentLengths row ingredients strengths)
      else inr (zip ingredients strengths)
  end.

(** Two records that list the same ingredients in different orders. *)
Definition ex_row_ab : Row :=
  mkRow "N1" "001" "AMLODIPINE; BENAZEPRIL" "CAPSULE;ORAL" "5MG;10MG".
Definition ex_row_ba : Row :=
  mkRow "N2" "001" "BENAZEPRIL; AMLODIPINE" "CAPSULE; ORAL" "10MG;5MG".

(** ** Summarizing the Orange Books ([summarize])

    The files are taken as already read: a book is its list of product
    rows and its list of patent rows. *)
Record PatentRow : Type := mkPatentRow {
  pat_appl_no : string;
  pat_product_no : string;
  pat_patent_no : string
}.

(** A product row with the further columns [summarize] copies. *)
Record ProductRow : Type := mkProductRow {
  p_row : Row;
  p_approval_date : string;
  p_te_code : string;
  p_applicant : string
}.

(** [s.endswith(suffix)] *)
Definition str_endswith (s suffix : string) : bool :=
  bool_decide (text_of suffix `suffix_of` text_of s).

Definition pat_headers : list string := ["appl_no"; "product_no"; "patent_no"].
Definition prod_headers : list string :=
  ["appl_no"; "product_no"; "approval_date"; "te_code"; "applicant"].

(** [[ row[h] for h in pat_headers ]] and [[ row[h] for h in prod_headers ]] *)
Definition pat_cells (r : PatentRow) : list string :=
  [pat_appl_no r; pat_product_no r; pat_patent_no r].
Definition prod_cells (p : ProductRow) : list string :=
  [row_appl_no (p_row p); row_product_no (p_row p); p_approval_date p;
   p_te_code p; p_applicant p].

(** [for row in patreader: ...] *)
Fixpoint write_patents (rows : list PatentRow) (w : Writer) : Exn + Writer :=
  match rows with
  | [] => inr w
  | row :: rows' =>
      if decide (pat_patent_no row = "") then write_patents rows' w
      else if str_endswith (pat_patent_no row) "*PED" then write_patents rows' w
      else
        match writerow (pat_cells row) w with
        | inl e => inl e
        | inr w' => write_patents rows' w'
        end
  end.

(** [for row in prodreader: ...] *)
Fixpoint read_products (rows : list ProductRow) (st : Registry) (w : Writer)
    : Exn + (Registry * Writer) :=
  match rows with
  | [] => inr (st, w)
  | row :: rows' =>
      match add (p_row row) st with
      | inl e => inl e
      | inr (_, st') =>
          match writerow (prod_cells row) w with
          | inl e => inl e
          | inr w' => read_products rows' st' w'
          end
      end
  end.

(** [for book, prodreader, patreader in each_book(): ...] *)
Fixpoint read_books (books : list (list ProductRow * list PatentRow))
    (st : Registry) (patwriter prodwriter : Writer)
    : Exn + (Registry * Writer * Writer) :=
  match books with
  | [] => inr (st, patwriter, prodwriter)
  | (products, patents) :: books' =>
      match write_patents patents patwriter with
      | inl e => inl e
      | inr patwriter' =>
          match read_products products st prodwriter with
          | inl e => inl e
          | inr (st', prodwriter') =>
              read_books books' st' patwriter' prodwriter'
          end
      end
  end.

(** [def summarize()], from the registry [st]: the patent summary file, the
    product summary file and the class records of [equivalents.json]. *)
Definition summarize (books : list (list ProductRow * list PatentRow))
    (st : Registry)
    : Exn + (list (list string) * list (list string) * list ClassRecord) :=
  match read_books books st (write_header pat_headers writer_new)
          (write_header prod_headers writer_new) with
  | inl e => inl e
  | inr (st', patwriter, prodwriter) =>
      match dump st' with
      | None => inl AttributeError
      | Some rs => inr (w_file patwriter, w_file prodwriter, rs)
      end
  end.

(** The patent rows [summarize] keeps. *)
Definition patent_kept (r : PatentRow) : Prop :=
  pat_patent_no r ≠ "" ∧ str_endswith (pat_patent_no r) "*PED" = false.

#[global] Instance patent_kept_dec r : Decision (patent_kept r).
Proof. unfold patent_kept. apply _. Defined.

(** The keys of the product rows that have keys. *)
Definition keys_of (rows : list ProductRow)
    : list (FormulationTuple * ApplicationTuple) :=
  omap (fun p => match form_tuple (p_row p) with
                 | inr ft => Some (ft, app_tuple (p_row p))
                 | inl _ => None
                 end) rows.

(** One book: a product row and three patent rows, of which one is kept. *)
Definition ex_books : list (list ProductRow * list PatentRow) :=
  [([mkProductRow ex_row_ab "Jan 1, 2000" "AB" "ACME"],
    [mkPatentRow "N1" "001" "123"; mkPatentRow "N1" "001" "123*PED";
     mkPatentRow "N1" "001" ""])].

(** ** Auxiliary facts *)

Lemma set_fold_insert_lookup {K V} `{Countable K} (X : gset K) (v : V)
    (m : gmap K V) (k : K) :
  set_fold (fun x r => <[x := v]> r) m X !! k
  = if decide (k ∈ X) then Some v else m !! k.
Proof.
  revert k.
  refine (set_fold_ind_L
    (fun r Y => ∀ k, r !! k = if decide (k ∈ Y) then Some v else m !! k)
    _ _ _ _ X).
  - intros k. by rewrite decide_False by set_solver.
  - intros x Y r Hx IH k. destruct (decide (x = k)) as [->|Hne].
    + rewrite lookup_insert_eq. by rewrite decide_True by set_solver.
    + rewrite lookup_insert_ne by done. rewrite IH.
      destruct (decide (k ∈ Y)).
      * by rewrite decide_True by set_solver.
      * by rewrite decide_False by set_solver.
Qed.

Lemma empty_registry_wf : wf empty_registry.
Proof.
  split; simpl.
  - intros i l H. by rewrite lookup_empty in H.
  - intros [ft|a] l; simpl; rewrite lookup_empty; split; try done;
      intros (c & [Hc _] & _); simpl in Hc; by rewrite lookup_empty in Hc.
  - intros l c i H. by rewrite lookup_empty in H.
  - intros l1 l2 c1 c2 i H. by rewrite lookup_empty in H.
  - intros l c H. by rewrite lookup_empty in H.
Qed.

(** *** What each operation computes *)

Ltac unfold_M :=
  unfold bind, ret, raise, get_state, put_state, deref, store,
    set_eq_classes, set_next_eq_id, set_form_tuple_classes,
    set_app_tuple_classes in *; simpl in *.

Lemma add_form_tuple_run self ft st c :
  form_tuple_classes st !! ft = None →
  heap st !! self = Some c →
  add_form_tuple self ft st
  = inr (tt, mkRegistry
               (<[self := set_form_tuples c ({[ft]} ∪ form_tuples c)]> (heap st))
               (eq_classes st) (next_eq_id st)
               (<[ft := self]> (form_tuple_classes st))
               (app_tuple_classes st)).
Proof.
  intros Hft Hc. unfold add_form_tuple. unfold_M. rewrite Hft. simpl.
  by rewrite Hc.
Qed.

Lemma add_app_tuple_run self a st c :
  app_tuple_classes st !! a = None →
  heap st !! self = Some c →
  add_app_tuple self a st
  = inr (tt, mkRegistry
               (<[self := set_app_tuples c ({[a]} ∪ app_tuples c)]> (heap st))
               (eq_classes st) (next_eq_id st)
               (form_tuple_classes st)
               (<[a := self]> (app_tuple_classes st))).
Proof.
  intros Ha Hc. unfold add_app_tuple. unfold_M. rewrite Ha. simpl.
  by rewrite Hc.
Qed.

Lemma add_form_tuple_inv self ft st u st' :
  add_form_tuple self ft st = inr (u, st') →
  form_tuple_classes st !! ft = None ∧ is_Some (heap st !! self).
Proof.
  unfold add_form_tuple. unfold_M.
  destruct (form_tuple_classes st !! ft); [done|]. simpl.
  destruct (heap st !! self); [eauto|done].
Qed.

Lemma add_app_tuple_inv self a st u st' :
  add_app_tuple self a st = inr (u, st') →
  app_tuple_classes st !! a = None ∧ is_Some (heap st !! self).
Proof.
  unfold add_app_tuple. unfold_M.
  destruct (app_tuple_classes st !! a); [done|]. simpl.
  destruct (heap st !! self); [eauto|done].
Qed.

Lemma merge_run self other st c o i :
  heap st !! self = Some c →
  heap st !! other = Some o →
  self ≠ other →
  eq_id o = Some i →
  is_Some (eq_classes st !! i) →
  merge self other st = inr (tt, merged st self c o i).
Proof.
  intros Hc Ho Hne Hi [x Hx]. unfold merge. unfold_M.
  repeat first
    [ rewrite lookup_insert_eq | rewrite lookup_insert_ne by done
    | rewrite Hc | rewrite Ho | rewrite Hi | rewrite Hx | progress simpl ].
  unfold merged, set_app_tuples, set_form_tuples. simpl.
  by rewrite insert_insert_eq.
Qed.

(** *** Preservation of well-formedness *)

Lemma live_heap st l c : live st l c → heap st !! l = Some c.
Proof. by intros [? _]. Qed.

Lemma live_unique st l c1 c2 : live st l c1 → live st l c2 → c1 = c2.
Proof. intros [H1 _] [H2 _]. congruence. Qed.

Lemma wf_live st i l :
  wf st → eq_classes st !! i = Some l → ∃ c, live st l c ∧ eq_id c = Some i.
Proof.
  intros Hwf Hi. destruct (wf_classes _ Hwf _ _ Hi) as (c & Hc & Hid).
  exists c. split; [|done]. split; [done|]. eauto.
Qed.

Lemma wf_class_of_live st k l :
  wf st → class_of st k = Some l → ∃ c, live st l c ∧ member c k.
Proof. intros Hwf. apply (wf_keys _ Hwf). Qed.

Lemma wf_member_class_of st k l c :
  wf st → live st l c → member c k → class_of st k = Some l.
Proof. intros Hwf ??. apply (wf_keys _ Hwf). eauto. Qed.

(** An instance gains members in place. *)
Lemma wf_update st st' self c c' :
  wf st → live st self c →
  heap st' = <[self := c']> (heap st) →
  eq_id c' = eq_id c →
  eq_classes st' = eq_classes st →
  next_eq_id st' = next_eq_id st →
  (∀ k l, class_of st' k = Some l ↔
          (l = self ∧ member c' k) ∨ (l ≠ self ∧ class_of st k = Some l)) →
  wf st'.
Proof.
  intros Hwf [Hc (i & Hi & Hli)] Hheap Hid Hcls Hnext Hkeys.
  assert (Hlive : ∀ l c0, live st' l c0 ↔
            (l = self ∧ c0 = c') ∨ (l ≠ self ∧ live st l c0)).
  { intros l c0. unfold live. rewrite Hheap, Hcls.
    destruct (decide (l = self)) as [->|Hne].
    - rewrite lookup_insert_eq. split.
      + intros [[= <-] _]. by left.
      + intros [[_ ->]|[? _]]; [|done]. split; [done|].
        exists i. by rewrite Hid.
    - rewrite lookup_insert_ne by done. naive_solver. }
  split.
  - intros j l Hj. rewrite Hcls in Hj. rewrite Hheap.
    destruct (wf_classes _ Hwf _ _ Hj) as (c0 & Hc0 & Hid0).
    destruct (decide (l = self)) as [->|Hne].
    + rewrite lookup_insert_eq. exists c'. split; [done|]. congruence.
    + rewrite lookup_insert_ne by done. eauto.
  - intros k l. rewrite Hkeys. split.
    + intros [[-> Hm]|[Hne Hk]].
      * exists c'. split; [|done]. apply Hlive. by left.
      * destruct (wf_class_of_live _ _ _ Hwf Hk) as (c0 & Hl0 & Hm0).
        exists c0. split; [|done]. apply Hlive. by right.
    + intros (c0 & Hl0 & Hm0). apply Hlive in Hl0 as [[-> ->]|[Hne Hl0]].
      * by left.
      * right. split; [done|]. by eapply wf_member_class_of.
  - intros l c0 j. rewrite Hheap, Hnext.
    destruct (decide (l = self)) as [->|Hne].
    + rewrite lookup_insert_eq. intros [= <-] Hj.
      eapply (wf_next _ Hwf); [done|]. congruence.
    + rewrite lookup_insert_ne by done. apply (wf_next _ Hwf).
  - intros l1 l2 c1 c2 j. rewrite Hheap.
    destruct (decide (l1 = self)) as [->|Hne1];
      destruct (decide (l2 = self)) as [->|Hne2]; [done|..];
      rewrite ?lookup_insert_eq, ?lookup_insert_ne by done.
    + intros [= <-] H2 Hj1 Hj2.
      eapply (wf_ids _ Hwf); [exact Hc|exact H2| |exact Hj2]. congruence.
    + intros H1 [= <-] Hj1 Hj2.
      eapply (wf_ids _ Hwf); [exact H1|exact Hc|exact Hj1|]. congruence.
    + apply (wf_ids _ Hwf).
  - intros l c0. rewrite Hheap.
    destruct (decide (l = self)) as [->|Hne].
    + rewrite lookup_insert_eq. intros [= <-]. rewrite Hid, Hi. eauto.
    + rewrite lookup_insert_ne by done. apply (wf_init _ Hwf).
Qed.

Lemma wf_add_form_tuple st self c ft :
  wf st → live st self c →
  form_tuple_classes st !! ft = None →
  wf (mkRegistry
        (<[self := set_form_tuples c ({[ft]} ∪ form_tuples c)]> (heap st))
        (eq_classes st) (next_eq_id st)
        (<[ft := self]> (form_tuple_classes st))
        (app_tuple_classes st)).
Proof.
  intros Hwf Hlive Hft.
  eapply (wf_update st _ self c); try done; simpl.
  intros [ft'|a] l; simpl.
  - destruct (decide (ft = ft')) as [<-|Hne].
    + rewrite lookup_insert_eq, Hft. split.
      * intros [= <-]. left. split; [done|]. set_solver.
      * intros [[-> _]|[_ ?]]; done.
    + rewrite lookup_insert_ne by done. split.
      * intros Hl. destruct (decide (l = self)) as [->|Hnl]; [|by right].
        left. split; [done|].
        destruct (wf_class_of_live _ (inl ft') _ Hwf Hl) as (c0 & Hl0 & Hm0).
        rewrite (live_unique _ _ _ _ Hlive Hl0). simpl in Hm0. set_solver.
      * intros [[-> Hm]|[_ ?]]; [|done].
        apply (wf_member_class_of _ (inl ft') _ c Hwf Hlive). simpl.
        set_solver.
  - split.
    + intros Hl. destruct (decide (l = self)) as [->|Hnl]; [|by right].
      left. split; [done|].
      destruct (wf_class_of_live _ (inr a) _ Hwf Hl) as (c0 & Hl0 & Hm0).
      by rewrite (live_unique _ _ _ _ Hlive Hl0).
    + intros [[-> Hm]|[_ ?]]; [|done].
      by apply (wf_member_class_of _ (inr a) _ c Hwf Hlive).
Qed.

Lemma wf_add_app_tuple st self c a :
  wf st → live st self c →
  app_tuple_classes st !! a = None →
  wf (mkRegistry
        (<[self := set_app_tuples c ({[a]} ∪ app_tuples c)]> (heap st))
        (eq_classes st) (next_eq_id st)
        (form_tuple_classes st)
        (<[a := self]> (app_tuple_classes st))).
Proof.
  intros Hwf Hlive Ha.
  eapply (wf_update st _ self c); try done; simpl.
  intros [ft|a'] l; simpl.
  - split.
    + intros Hl. destruct (decide (l = self)) as [->|Hnl]; [|by right].
      left. split; [done|].
      destruct (wf_class_of_live _ (inl ft) _ Hwf Hl) as (c0 & Hl0 & Hm0).
      by rewrite (live_unique _ _ _ _ Hlive Hl0).
    + intros [[-> Hm]|[_ ?]]; [|done].
      by apply (wf_member_class_of _ (inl ft) _ c Hwf Hlive).
  - destruct (decide (a = a')) as [<-|Hne].
    + rewrite lookup_insert_eq, Ha. split.
      * intros [= <-]. left. split; [done|]. set_solver.
      * intros [[-> _]|[_ ?]]; done.
    + rewrite lookup_insert_ne by done. split.
      * intros Hl. destruct (decide (l = self)) as [->|Hnl]; [|by right].
        left. split; [done|].
        destruct (wf_class_of_live _ (inr a') _ Hwf Hl) as (c0 & Hl0 & Hm0).
        rewrite (live_unique _ _ _ _ Hlive Hl0). simpl in Hm0. set_solver.
      * intros [[-> Hm]|[_ ?]]; [|done].
        apply (wf_member_class_of _ (inr a') _ c Hwf Hlive). simpl.
        set_solver.
Qed.

Lemma class_of_merged st self c o i k :
  class_of (merged st self c o i) k
  = if decide (member o k) then Some self else class_of st k.
Proof.
  destruct k as [ft|a]; simpl; rewrite set_fold_insert_lookup;
    repeat case_decide; done.
Qed.

Lemma member_merged c o e k :
  member (mkEqClass (form_tuples c ∪ form_tuples o)
            (app_tuples c ∪ app_tuples o) e) k
  ↔ member c k ∨ member o k.
Proof. destruct k; simpl; set_solver. Qed.

(** An instance absorbs another one. *)
Lemma wf_merge st self other c o i :
  wf st → live st self c → live st other o → self ≠ other →
  eq_id o = Some i →
  wf (merged st self c o i).
Proof.
  intros Hwf Hs Ho Hne Hi.
  pose proof Hs as [Hc (j & Hj & Hlj)].
  pose proof Ho as [Hoh (i' & Hi' & Hli)].
  assert (i' = i) as -> by congruence.
  assert (Hij : j ≠ i) by (intros ->; congruence).
  set (cu := mkEqClass (form_tuples c ∪ form_tuples o)
               (app_tuples c ∪ app_tuples o) (eq_id c)).
  assert (Hlive : ∀ l c0, live (merged st self c o i) l c0 ↔
            (l = self ∧ c0 = cu) ∨ (l ≠ self ∧ l ≠ other ∧ live st l c0)).
  { intros l c0. unfold live, merged; simpl.
    destruct (decide (l = self)) as [->|Hnl].
    - rewrite lookup_insert_eq. split.
      + intros [[= <-] _]. by left.
      + intros [[_ ->]|[? _]]; [|done]. split; [done|].
        exists j. simpl. by rewrite lookup_delete_ne.
    - rewrite lookup_insert_ne by done. split.
      + intros (Hl & j' & Hj' & Hlj'). right. split; [done|].
        destruct (decide (j' = i)) as [->|Hne'].
        { by rewrite lookup_delete_eq in Hlj'. }
        rewrite lookup_delete_ne in Hlj' by done.
        split; [|split; eauto]. intros ->. congruence.
      + intros [[? _]|(_ & Hno & Hl & j' & Hj' & Hlj')]; [done|].
        split; [done|]. exists j'. split; [done|].
        rewrite lookup_delete_ne; [done|]. intros <-. congruence. }
  split.
  - intros j' l. unfold merged; simpl. intros Hj'.
    destruct (decide (i = j')) as [<-|Hne'].
    { by rewrite lookup_delete_eq in Hj'. }
    rewrite lookup_delete_ne in Hj' by done.
    destruct (wf_classes _ Hwf _ _ Hj') as (c0 & Hc0 & Hid0).
    destruct (decide (l = self)) as [->|Hnl].
    + rewrite lookup_insert_eq. exists cu. split; [done|]. simpl. congruence.
    + rewrite lookup_insert_ne by done. eauto.
  - intros k l. rewrite class_of_merged. split.
    + case_decide as Hm.
      * intros [= <-]. exists cu. split; [by apply Hlive; left|].
        apply member_merged. by right.
      * intros Hk.
        destruct (wf_class_of_live _ _ _ Hwf Hk) as (c0 & Hl0 & Hm0).
        destruct (decide (l = self)) as [->|Hnl].
        { exists cu. split; [by apply Hlive; left|].
          apply member_merged. left.
          by rewrite (live_unique _ _ _ _ Hs Hl0). }
        exists c0. split; [|done]. apply Hlive. right.
        split; [done|]. split; [|done]. intros ->.
        by rewrite (live_unique _ _ _ _ Ho Hl0) in Hm.
    + intros (c0 & Hl0 & Hm0). apply Hlive in Hl0 as [[-> ->]|(Hnl & Hno & Hl0)].
      * case_decide as Hm; [done|]. apply member_merged in Hm0 as [Hm0|]; [|done].
        by eapply wf_member_class_of.
      * rewrite decide_False; [by eapply wf_member_class_of|].
        intros Hm. apply Hno.
        pose proof (wf_member_class_of _ _ _ _ Hwf Ho Hm) as H1.
        pose proof (wf_member_class_of _ _ _ _ Hwf Hl0 Hm0) as H2.
        congruence.
  - intros l c0 j'. unfold merged; simpl.
    destruct (decide (l = self)) as [->|Hnl].
    + rewrite lookup_insert_eq. intros [= <-] Hj'. simpl in Hj'.
      eapply (wf_next _ Hwf); [exact Hc|exact Hj'].
    + rewrite lookup_insert_ne by done. apply (wf_next _ Hwf).
  - intros l1 l2 c1 c2 j'. unfold merged; simpl.
    destruct (decide (l1 = self)) as [->|Hne1];
      destruct (decide (l2 = self)) as [->|Hne2]; [done|..];
      rewrite ?lookup_insert_eq, ?lookup_insert_ne by done.
    + intros [= <-] H2 Hj1 Hj2.
      by eapply (wf_ids _ Hwf); [exact Hc|exact H2|exact Hj1|exact Hj2].
    + intros H1 [= <-] Hj1 Hj2.
      by eapply (wf_ids _ Hwf); [exact H1|exact Hc|exact Hj1|exact Hj2].
    + apply (wf_ids _ Hwf).
  - intros l c0. unfold merged; simpl.
    destruct (decide (l = self)) as [->|Hnl].
    + rewrite lookup_insert_eq. intros [= <-]. simpl. rewrite Hj. eauto.
    + rewrite lookup_insert_ne by done. apply (wf_init _ Hwf).
Qed.

(** *** Construction of an instance *)

Lemma foldl_insert_lookup {K V} `{Countable K} (xs : list K) (v : V)
    (m : gmap K V) (k : K) :
  foldl (fun r x => <[x := v]> r) m xs !! k
  = if decide (k ∈ xs) then Some v else m !! k.
Proof.
  revert m. induction xs as [|x xs IH]; intros m; simpl.
  - done.
  - rewrite IH. destruct (decide (k ∈ xs)).
    + by rewrite decide_True by set_solver.
    + destruct (decide (x = k)) as [->|Hne].
      * rewrite lookup_insert_eq. by rewrite decide_True by set_solver.
      * rewrite lookup_insert_ne by done. by rewrite decide_False by set_solver.
Qed.

Lemma for_each_add_form_run self fts st c :
  heap st !! self = Some c →
  NoDup fts →
  (∀ ft, ft ∈ fts → form_tuple_classes st !! ft = None) →
  for_each (add_form_tuple self) fts st
  = inr (tt, mkRegistry
               (<[self := set_form_tuples c (list_to_set fts ∪ form_tuples c)]>
                  (heap st))
               (eq_classes st) (next_eq_id st)
               (foldl (fun m ft => <[ft := self]> m) (form_tuple_classes st) fts)
               (app_tuple_classes st)).
Proof.
  revert st c. induction fts as [|ft fts IH]; intros st c Hc Hnd Hfresh; simpl.
  - unfold ret. do 2 f_equal. destruct st; simpl in *. f_equal.
    rewrite insert_id; [done|]. rewrite Hc. f_equal.
    destruct c; unfold set_form_tuples; simpl. f_equal. set_solver.
  - apply NoDup_cons in Hnd as [Hnin Hnd].
    unfold bind. rewrite (add_form_tuple_run _ _ _ c); [|set_solver|done].
    erewrite IH; simpl; [| apply lookup_insert_eq | done |].
    + do 2 f_equal. rewrite insert_insert_eq. do 2 f_equal.
      unfold set_form_tuples; simpl. f_equal. set_solver.
    + intros ft' Hin. rewrite lookup_insert_ne by set_solver.
      apply Hfresh. set_solver.
Qed.

Lemma for_each_add_app_run self ats st c :
  heap st !! self = Some c →
  NoDup ats →
  (∀ a, a ∈ ats → app_tuple_classes st !! a = None) →
  for_each (add_app_tuple self) ats st
  = inr (tt, mkRegistry
               (<[self := set_app_tuples c (list_to_set ats ∪ app_tuples c)]>
                  (heap st))
               (eq_classes st) (next_eq_id st)
               (form_tuple_classes st)
               (foldl (fun m a => <[a := self]> m) (app_tuple_classes st) ats)).
Proof.
  revert st c. induction ats as [|a ats IH]; intros st c Hc Hnd Hfresh; simpl.
  - unfold ret. do 2 f_equal. destruct st; simpl in *. f_equal.
    rewrite insert_id; [done|]. rewrite Hc. f_equal.
    destruct c; unfold set_app_tuples; simpl. f_equal. set_solver.
  - apply NoDup_cons in Hnd as [Hnin Hnd].
    unfold bind. rewrite (add_app_tuple_run _ _ _ c); [|set_solver|done].
    erewrite IH; simpl; [| apply lookup_insert_eq | done |].
    + do 2 f_equal. rewrite insert_insert_eq. do 2 f_equal.
      unfold set_app_tuples; simpl. f_equal. set_solver.
    + intros a' Hin. rewrite lookup_insert_ne by set_solver.
      apply Hfresh. set_solver.
Qed.

Lemma for_each_add_form_inv self fts st u st' :
  for_each (add_form_tuple self) fts st = inr (u, st') →
  NoDup fts ∧ ∀ ft, ft ∈ fts → form_tuple_classes st !! ft = None.
Proof.
  revert st. induction fts as [|ft fts IH]; intros st; simpl.
  - intros _. split; [constructor|set_solver].
  - unfold bind. destruct (add_form_tuple self ft st) as [e|[[] st1]] eqn:E;
      [done|]. intros Hrest.
    destruct (add_form_tuple_inv _ _ _ _ _ E) as [Hft [c Hc]].
    rewrite (add_form_tuple_run _ _ _ c) in E by done.
    injection E as <-. apply IH in Hrest as [Hnd Hfresh]. simpl in Hfresh.
    assert (Hnin : ft ∉ fts).
    { intros Hin. specialize (Hfresh _ Hin).
      by rewrite lookup_insert_eq in Hfresh. }
    split; [by constructor|]. intros ft' [->|Hin]%elem_of_cons; [done|].
    specialize (Hfresh _ Hin). rewrite lookup_insert_ne in Hfresh; [done|].
    by intros ->.
Qed.

Lemma for_each_add_app_inv self ats st u st' :
  for_each (add_app_tuple self) ats st = inr (u, st') →
  NoDup ats ∧ ∀ a, a ∈ ats → app_tuple_classes st !! a = None.
Proof.
  revert st. induction ats as [|a ats IH]; intros st; simpl.
  - intros _. split; [constructor|set_solver].
  - unfold bind. destruct (add_app_tuple self a st) as [e|[[] st1]] eqn:E;
      [done|]. intros Hrest.
    destruct (add_app_tuple_inv _ _ _ _ _ E) as [Ha [c Hc]].
    rewrite (add_app_tuple_run _ _ _ c) in E by done.
    injection E as <-. apply IH in Hrest as [Hnd Hfresh]. simpl in Hfresh.
    assert (Hnin : a ∉ ats).
    { intros Hin. specialize (Hfresh _ Hin).
      by rewrite lookup_insert_eq in Hfresh. }
    split; [by constructor|]. intros a' [->|Hin]%elem_of_cons; [done|].
    specialize (Hfresh _ Hin). rewrite lookup_insert_ne in Hfresh; [done|].
    by intros ->.
Qed.

Lemma new_class_run st fts ats eq_id_arg :
  NoDup fts → (∀ ft, ft ∈ fts → form_tuple_classes st !! ft = None) →
  NoDup ats → (∀ a, a ∈ ats → app_tuple_classes st !! a = None) →
  eq_classes st !! (chosen_id st eq_id_arg).1 = None →
  new_class fts ats eq_id_arg st
  = inr (fresh (dom (heap st)),
         created st fts ats (chosen_id st eq_id_arg).1 (chosen_id st eq_id_arg).2).
Proof.
  intros Hnf Hff Hna Hfa Hid. unfold new_class.
  set (self := fresh (dom (heap st))).
  unfold bind at 1. unfold get_state at 1.
  unfold bind at 1. unfold store at 1.
  unfold bind at 1.
  erewrite for_each_add_form_run; simpl; [|apply lookup_insert_eq|done|done].
  unfold bind at 1.
  erewrite for_each_add_app_run; simpl; [|apply lookup_insert_eq|done|done].
  unfold_M.
  destruct eq_id_arg as [i|]; simpl in *; rewrite Hid; simpl;
    rewrite lookup_insert_eq; simpl; rewrite ?insert_insert_eq;
    unfold created, set_eq_id; simpl;
    by rewrite !(right_id_L ∅ (∪)).

Qed.

Lemma new_class_inv st fts ats eq_id_arg l st' :
  new_class fts ats eq_id_arg st = inr (l, st') →
  (NoDup fts ∧ ∀ ft, ft ∈ fts → form_tuple_classes st !! ft = None) ∧
  (NoDup ats ∧ ∀ a, a ∈ ats → app_tuple_classes st !! a = None) ∧
  eq_classes st !! (chosen_id st eq_id_arg).1 = None.
Proof.
  unfold new_class.
  unfold bind at 1. unfold get_state at 1.
  unfold bind at 1. unfold store at 1.
  unfold bind at 1.
  match goal with |- context [for_each _ fts ?s] => set (st1 := s) end.
  destruct (for_each (add_form_tuple _) fts st1) as [e|[[] st2]] eqn:E1;
    [done|].
  pose proof (for_each_add_form_inv _ _ _ _ _ E1) as HF.
  erewrite for_each_add_form_run in E1;
    [|apply lookup_insert_eq|apply HF|apply HF].
  injection E1 as <-.
  unfold bind at 1.
  match goal with |- context [for_each _ ats ?s] => set (st2 := s) end.
  destruct (for_each (add_app_tuple _) ats st2) as [e|[[] st3]] eqn:E2;
    [done|].
  pose proof (for_each_add_app_inv _ _ _ _ _ E2) as HA.
  erewrite for_each_add_app_run in E2;
    [|apply lookup_insert_eq|apply HA|apply HA].
  injection E2 as <-.
  intros H. split; [exact HF|]. split; [exact HA|].
  unfold_M. destruct eq_id_arg as [i|]; simpl in *;
    by destruct (eq_classes st !! _).
Qed.

Lemma fresh_loc_unused st : heap st !! fresh (dom (heap st)) = None.
Proof. apply not_elem_of_dom, is_fresh. Qed.

Lemma class_of_created st fts ats i next k :
  class_of (created st fts ats i next) k
  = if decide (member (mkEqClass (list_to_set fts) (list_to_set ats) (Some i)) k)
    then Some (fresh (dom (heap st))) else class_of st k.
Proof.
  destruct k as [ft|a]; simpl; rewrite foldl_insert_lookup;
    repeat case_decide; set_solver.
Qed.

(** A new instance under an id no instance has carried. *)
Lemma wf_created st fts ats i next :
  wf st →
  (∀ ft, ft ∈ fts → form_tuple_classes st !! ft = None) →
  (∀ a, a ∈ ats → app_tuple_classes st !! a = None) →
  (∀ l c, heap st !! l = Some c → eq_id c ≠ Some i) →
  i < next → next_eq_id st ≤ next →
  wf (created st fts ats i next).
Proof.
  intros Hwf Hff Hfa Hnew Hi Hnext.
  set (self := fresh (dom (heap st))).
  set (cn := mkEqClass (list_to_set fts) (list_to_set ats) (Some i)).
  pose proof (fresh_loc_unused st) as Hself. fold self in Hself.
  assert (Hfresh : ∀ k, member cn k → class_of st k = None).
  { intros [ft|a]; simpl; intros Hm; [apply Hff|apply Hfa]; set_solver. }
  assert (Hlive : ∀ l c0, live (created st fts ats i next) l c0 ↔
            (l = self ∧ c0 = cn) ∨ (l ≠ self ∧ live st l c0)).
  { intros l c0. unfold live, created; simpl. fold self.
    destruct (decide (l = self)) as [->|Hnl].
    - rewrite lookup_insert_eq. split.
      + intros [[= <-] _]. by left.
      + intros [[_ ->]|[? _]]; [|done]. split; [done|].
        exists i. simpl. by rewrite lookup_insert_eq.
    - rewrite lookup_insert_ne by done. split.
      + intros (Hl & j & Hj & Hlj). right. split; [done|]. split; [done|].
        exists j. split; [done|]. rewrite lookup_insert_ne in Hlj; [done|].
        intros <-. by eapply Hnew.
      + intros [[? _]|(_ & Hl & j & Hj & Hlj)]; [done|].
        split; [done|]. exists j. split; [done|].
        rewrite lookup_insert_ne; [done|]. intros <-. by eapply Hnew. }
  split.
  - intros j l. unfold created; simpl. fold self.
    destruct (decide (i = j)) as [<-|Hne].
    + rewrite lookup_insert_eq. intros [= <-]. rewrite lookup_insert_eq.
      by exists cn.
    + rewrite lookup_insert_ne by done. intros Hj.
      destruct (wf_classes _ Hwf _ _ Hj) as (c0 & Hc0 & Hid0).
      rewrite lookup_insert_ne by congruence. eauto.
  - intros k l. rewrite class_of_created. fold self cn. split.
    + case_decide as Hm.
      * intros [= <-]. exists cn. split; [by apply Hlive; left|done].
      * intros Hk.
        destruct (wf_class_of_live _ _ _ Hwf Hk) as (c0 & Hl0 & Hm0).
        exists c0. split; [|done]. apply Hlive. right. split; [|done].
        intros ->. destruct Hl0 as [Hl0 _]. congruence.
    + intros (c0 & Hl0 & Hm0). apply Hlive in Hl0 as [[-> ->]|[Hnl Hl0]].
      * by rewrite decide_True.
      * pose proof (wf_member_class_of _ _ _ _ Hwf Hl0 Hm0) as Hk.
        rewrite decide_False; [done|]. intros Hm. apply Hfresh in Hm.
        congruence.
  - intros l c0 j. unfold created; simpl. fold self.
    destruct (decide (l = self)) as [->|Hnl].
    + rewrite lookup_insert_eq. intros [= <-] [= <-]. done.
    + rewrite lookup_insert_ne by done. intros H1 H2.
      pose proof (wf_next _ Hwf _ _ _ H1 H2). lia.
  - intros l1 l2 c1 c2 j. unfold created; simpl. fold self.
    destruct (decide (l1 = self)) as [->|Hne1];
      destruct (decide (l2 = self)) as [->|Hne2]; [done|..];
      rewrite ?lookup_insert_eq, ?lookup_insert_ne by done.
    + intros [= <-] H2 [= <-] Hj2. by destruct (Hnew _ _ H2).
    + intros H1 [= <-] Hj1 [= <-]. by destruct (Hnew _ _ H1).
    + apply (wf_ids _ Hwf).
  - intros l c0. unfold created; simpl. fold self.
    destruct (decide (l = self)) as [->|Hnl].
    + rewrite lookup_insert_eq. intros [= <-]. simpl. eauto.
    + rewrite lookup_insert_ne by done. apply (wf_init _ Hwf).
Qed.

Lemma wf_counter_unused st l c :
  wf st → heap st !! l = Some c → eq_id c ≠ Some (next_eq_id st).
Proof.
  intros Hwf Hc Hid. pose proof (wf_next _ Hwf _ _ _ Hc Hid). lia.
Qed.

Lemma wf_unused_not_registered st i :
  wf st → (∀ l c, heap st !! l = Some c → eq_id c ≠ Some i) →
  eq_classes st !! i = None.
Proof.
  intros Hwf Hnew. destruct (eq_classes st !! i) as [l|] eqn:E; [|done].
  destruct (wf_classes _ Hwf _ _ E) as (c & Hc & Hid). by destruct (Hnew _ _ Hc).
Qed.

(** *** The five branches of [add] *)

Lemma add_tuples_new st ft a :
  wf st →
  form_tuple_classes st !! ft = None → app_tuple_classes st !! a = None →
  add_tuples ft a st
  = inr (fresh (dom (heap st)),
         created st [ft] [a] (next_eq_id st) (next_eq_id st + 1)).
Proof.
  intros Hwf Hft Ha. unfold add_tuples, get. unfold_M. rewrite Hft, Ha.
  apply (new_class_run st [ft] [a] None).
  - apply NoDup_singleton.
  - by intros ? ->%list_elem_of_singleton.
  - apply NoDup_singleton.
  - by intros ? ->%list_elem_of_singleton.
  - apply wf_unused_not_registered; [done|]. intros l c.
    by apply wf_counter_unused.
Qed.

Lemma add_tuples_app st ft a l c :
  wf st → live st l c →
  form_tuple_classes st !! ft = Some l → app_tuple_classes st !! a = None →
  add_tuples ft a st
  = inr (l, mkRegistry
              (<[l := set_app_tuples c ({[a]} ∪ app_tuples c)]> (heap st))
              (eq_classes st) (next_eq_id st) (form_tuple_classes st)
              (<[a := l]> (app_tuple_classes st))).
Proof.
  intros Hwf Hl Hft Ha.
  destruct (wf_class_of_live _ (inl ft) _ Hwf Hft) as (c' & Hl' & Hm).
  rewrite <-(live_unique _ _ _ _ Hl Hl') in Hm. simpl in Hm.
  assert (a ∉ app_tuples c) as Hna.
  { intros Hin. pose proof (wf_member_class_of _ (inr a) _ _ Hwf Hl Hin) as H.
    simpl in H. congruence. }
  unfold add_tuples, get, append. unfold_M. rewrite Hft, Ha.
  rewrite (live_heap _ _ _ Hl). simpl.
  rewrite decide_False by done. rewrite decide_True by done.
  by rewrite (add_app_tuple_run _ _ _ c) by (done || by apply live_heap).
Qed.

Lemma add_tuples_form st ft a l c :
  wf st → live st l c →
  form_tuple_classes st !! ft = None → app_tuple_classes st !! a = Some l →
  add_tuples ft a st
  = inr (l, mkRegistry
              (<[l := set_form_tuples c ({[ft]} ∪ form_tuples c)]> (heap st))
              (eq_classes st) (next_eq_id st)
              (<[ft := l]> (form_tuple_classes st))
              (app_tuple_classes st)).
Proof.
  intros Hwf Hl Hft Ha.
  destruct (wf_class_of_live _ (inr a) _ Hwf Ha) as (c' & Hl' & Hm).
  rewrite <-(live_unique _ _ _ _ Hl Hl') in Hm. simpl in Hm.
  assert (ft ∉ form_tuples c) as Hnf.
  { intros Hin. pose proof (wf_member_class_of _ (inl ft) _ _ Hwf Hl Hin) as H.
    simpl in H. congruence. }
  unfold add_tuples, get, append. unfold_M. rewrite Hft, Ha.
  rewrite (live_heap _ _ _ Hl). simpl.
  rewrite decide_True by done. rewrite decide_False by done.
  by rewrite (add_form_tuple_run _ _ _ c) by (done || by apply live_heap).
Qed.

Lemma add_tuples_same st ft a l :
  wf st →
  form_tuple_classes st !! ft = Some l → app_tuple_classes st !! a = Some l →
  add_tuples ft a st = inr (l, st).
Proof.
  intros Hwf Hft Ha.
  destruct (wf_class_of_live _ (inl ft) _ Hwf Hft) as (c & Hl & Hmf).
  destruct (wf_class_of_live _ (inr a) _ Hwf Ha) as (c' & Hl' & Hma).
  rewrite <-(live_unique _ _ _ _ Hl Hl') in Hma. simpl in *.
  unfold add_tuples, get, append. unfold_M. rewrite Hft, Ha.
  rewrite decide_True by done. rewrite (live_heap _ _ _ Hl). simpl.
  by rewrite !decide_True by done.
Qed.

Lemma add_tuples_merge st ft a l1 l2 c o i :
  wf st → live st l1 c → live st l2 o → l1 ≠ l2 → eq_id o = Some i →
  form_tuple_classes st !! ft = Some l1 → app_tuple_classes st !! a = Some l2 →
  add_tuples ft a st = inr (l1, merged st l1 c o i).
Proof.
  intros Hwf Hl1 Hl2 Hne Hi Hft Ha.
  destruct (wf_class_of_live _ (inl ft) _ Hwf Hft) as (c' & Hl' & Hmf).
  rewrite <-(live_unique _ _ _ _ Hl1 Hl') in Hmf.
  destruct (wf_class_of_live _ (inr a) _ Hwf Ha) as (o' & Hl'' & Hma).
  rewrite <-(live_unique _ _ _ _ Hl2 Hl'') in Hma. simpl in *.
  assert (is_Some (eq_classes st !! i)) as Hreg.
  { destruct Hl2 as [_ (j & Hj & Hlj)]. exists l2. congruence. }
  unfold add_tuples, get. unfold bind at 1. unfold get_state at 1.
  unfold bind at 1. unfold ret at 1. unfold bind at 1. unfold get_state at 1.
  unfold bind at 1. unfold ret at 1. simpl. rewrite Hft, Ha.
  rewrite decide_False by done. unfold bind at 1.
  rewrite (merge_run _ _ _ c o i) by (done || by apply live_heap).
  unfold append. unfold_M. rewrite lookup_insert_eq. simpl.
  rewrite !decide_True by set_solver. done.
Qed.

Lemma add_tuples_spec st ft a :
  wf st →
  ∃ l st', add_tuples ft a st = inr (l, st') ∧ wf st' ∧
    (∀ k, class_of st' k
          = if decide (linked st ft a k) then Some l else class_of st k) ∧
    (∀ k, ¬ linked st ft a k → class_of st k ≠ Some l).
Proof.
  intros Hwf.
  destruct (form_tuple_classes st !! ft) as [l1|] eqn:Hft;
    destruct (app_tuple_classes st !! a) as [l2|] eqn:Ha.
  - destruct (wf_class_of_live _ (inl ft) _ Hwf Hft) as (c & Hl1 & Hmf).
    destruct (wf_class_of_live _ (inr a) _ Hwf Ha) as (o & Hl2 & Hma).
    destruct (decide (l1 = l2)) as [<-|Hne].
    + exists l1, st. split; [by apply add_tuples_same|]. split; [done|].
      split.
      * intros k. case_decide as Hk; [|done].
        destruct Hk as [->|[->|[_ Hk]]]; simpl in *; [done..|].
        rewrite Hft, Ha in Hk. by destruct Hk.
      * intros k Hk Hcl. apply Hk. right; right. simpl. rewrite Hcl, Hft.
        eauto.
    + destruct (wf_init _ Hwf _ _ (live_heap _ _ _ Hl2)) as [i Hi].
      exists l1, (merged st l1 c o i).
      split; [by eapply add_tuples_merge|].
      split; [by apply (wf_merge st l1 l2)|]. split.
      * intros k. rewrite class_of_merged.
        case_decide as Hm; case_decide as Hk; try done.
        -- destruct Hk. right; right.
           pose proof (wf_member_class_of _ _ _ _ Hwf Hl2 Hm) as Hcl.
           simpl. rewrite Hcl, Ha. eauto.
        -- destruct Hk as [->|[->|[_ Hk]]]; simpl in *; [done|done|].
           rewrite Hft, Ha in Hk. destruct Hk as [Hk|Hk]; [done|].
           destruct (wf_class_of_live _ _ _ Hwf Hk) as (o' & Hl' & Hm').
           by rewrite (live_unique _ _ _ _ Hl2 Hl') in Hm.
      * intros k Hk Hcl. apply Hk. right; right. simpl. rewrite Hcl, Hft.
        eauto.
  - destruct (wf_class_of_live _ (inl ft) _ Hwf Hft) as (c & Hl1 & Hmf).
    eexists l1, _. split; [by eapply add_tuples_app|].
    split; [by apply wf_add_app_tuple|]. split.
    + intros [ft'|a']; simpl.
      * case_decide as Hk; [|done].
        destruct Hk as [[= ->]|[?|[[x Hx] Hk]]]; simpl in *; [done..|].
        rewrite Hft, Ha in Hk. destruct Hk as [Hk|Hk]; [done|].
        congruence.
      * destruct (decide (a = a')) as [<-|Hna].
        -- rewrite lookup_insert_eq. rewrite decide_True; [done|].
           right. by left.
        -- rewrite lookup_insert_ne by done.
           case_decide as Hk; [|done].
           destruct Hk as [?|[[= ->]|[[x Hx] Hk]]]; simpl in *; [done..|].
           rewrite Hft, Ha in Hk. destruct Hk as [Hk|Hk]; [done|].
           congruence.
    + intros k Hk Hcl. apply Hk. right; right. simpl. rewrite Hcl, Hft.
      eauto.
  - destruct (wf_class_of_live _ (inr a) _ Hwf Ha) as (c & Hl2 & Hma).
    eexists l2, _. split; [by eapply add_tuples_form|].
    split; [by apply wf_add_form_tuple|]. split.
    + intros [ft'|a']; simpl.
      * destruct (decide (ft = ft')) as [<-|Hnf].
        -- rewrite lookup_insert_eq. rewrite decide_True; [done|]. by left.
        -- rewrite lookup_insert_ne by done.
           case_decide as Hk; [|done].
           destruct Hk as [[= ->]|[?|[[x Hx] Hk]]]; simpl in *; [done..|].
           rewrite Hft, Ha in Hk. destruct Hk as [Hk|Hk]; [|done].
           congruence.
      * case_decide as Hk; [|done].
        destruct Hk as [?|[[= ->]|[[x Hx] Hk]]]; simpl in *; [done..|].
        rewrite Hft, Ha in Hk. destruct Hk as [Hk|Hk]; [|done].
        congruence.
    + intros k Hk Hcl. apply Hk. right; right. simpl. rewrite Hcl, Ha.
      eauto.
  - eexists _, _. split; [by apply add_tuples_new|].
    split.
    { apply wf_created; try done; try lia.
      - by intros ? ->%list_elem_of_singleton.
      - by intros ? ->%list_elem_of_singleton.
      - intros l c. by apply wf_counter_unused. }
    split.
    + intros k. rewrite class_of_created.
      case_decide as Hm; case_decide as Hk; try done.
      * destruct Hk. destruct k; simpl in Hm.
        -- left. f_equal. set_solver.
        -- right; left. f_equal. set_solver.
      * destruct Hk as [->|[->|[[x Hx] Hk]]]; simpl in *.
        -- destruct Hm. set_solver.
        -- destruct Hm. set_solver.
        -- rewrite Hft, Ha in Hk. destruct Hk; congruence.
    + intros k _ Hcl.
      destruct (wf_class_of_live _ _ _ Hwf Hcl) as (c & [Hc _] & _).
      by rewrite fresh_loc_unused in Hc.
Qed.

Lemma same_class_co_member st k1 k2 :
  wf st → same_class st k1 k2 ↔ co_member st k1 k2.
Proof.
  intros Hwf. split.
  - intros (l & c & Hl & H1 & H2). exists l.
    split; by eapply wf_member_class_of.
  - intros (l & H1 & H2).
    destruct (wf_class_of_live _ _ _ Hwf H1) as (c & Hl & Hm1).
    destruct (wf_class_of_live _ _ _ Hwf H2) as (c' & Hl' & Hm2).
    rewrite <-(live_unique _ _ _ _ Hl Hl') in Hm2. by exists l, c.
Qed.

Lemma co_member_sym st k1 k2 : co_member st k1 k2 → co_member st k2 k1.
Proof. intros (l & ? & ?). by exists l. Qed.

Lemma co_member_trans st k1 k2 k3 :
  co_member st k1 k2 → co_member st k2 k3 → co_member st k1 k3.
Proof. intros (l & ? & ?) (l' & ? & ?). exists l. split; congruence. Qed.

Lemma tc_incl {A} (R1 R2 : relation A) :
  (∀ x y, R1 x y → tc R2 x y) → ∀ x y, tc R1 x y → tc R2 x y.
Proof.
  intros Hsub x y H. induction H as [x y H|x y z H _ IH].
  - by apply Hsub.
  - etrans; [by apply Hsub|done].
Qed.

Lemma linked_co_member st ft a x y :
  linked st ft a x → co_member st x y → linked st ft a y.
Proof.
  intros Hx (l & Hxl & Hyl). right; right. split; [by rewrite Hyl|].
  destruct Hx as [->|[->|[_ [Hx|Hx]]]]; simpl in *; [left|right|left|right];
    congruence.
Qed.

(** What one [add] does to co-membership. *)
Lemma add_tuples_co_member st st' l ft a :
  (∀ k, class_of st' k
        = if decide (linked st ft a k) then Some l else class_of st k) →
  (∀ k, ¬ linked st ft a k → class_of st k ≠ Some l) →
  ∀ x y, co_member st' x y ↔
         co_member st x y ∨ (linked st ft a x ∧ linked st ft a y).
Proof.
  intros Hcl Hother x y. unfold co_member at 1. rewrite !Hcl. split.
  - intros (l' & Hx & Hy).
    destruct (decide (linked st ft a x)) as [Lx|Lx];
      destruct (decide (linked st ft a y)) as [Ly|Ly].
    + by right.
    + injection Hx as <-. by destruct (Hother _ Ly).
    + injection Hy as <-. by destruct (Hother _ Lx).
    + left. by exists l'.
  - intros [Hco|[Lx Ly]].
    + destruct (decide (linked st ft a x)) as [Lx|Lx].
      * rewrite decide_True by (by eapply linked_co_member).
        by exists l.
      * rewrite decide_False; [done|]. intros Ly. apply Lx.
        eapply linked_co_member; [done|]. by apply co_member_sym.
    + exists l. by rewrite !decide_True.
Qed.

Lemma linked_cases st ft a x :
  linked st ft a x ↔
  x = inl ft ∨ x = inr a ∨ co_member st x (inl ft) ∨ co_member st x (inr a).
Proof.
  split.
  - intros [->|[->|[[l Hl] [Hx|Hx]]]]; [by left|by right; left|..].
    + right; right; left. exists l. split; congruence.
    + right; right; right. exists l. split; congruence.
  - intros [->|[->|[(l & Hx & Hf)|(l & Hx & Ha)]]];
      [by left|by right; left|..]; right; right; (split; [by rewrite Hx|]).
    + left. congruence.
    + right. congruence.
Qed.

Lemma add_all_closure rs st :
  wf st →
  ∃ st', add_all rs st = inr (tt, st') ∧ wf st' ∧
    ∀ k1 k2, co_member st' k1 k2 ↔
             tc (fun x y => co_member st x y ∨ cooccur rs x y) k1 k2.
Proof.
  revert st. induction rs as [|[ft a] rs IH]; intros st Hwf; simpl.
  - exists st. split; [done|]. split; [done|]. intros k1 k2. split.
    + intros H. apply tc_once. by left.
    + intros H. induction H as [x y [H|(?&?&[]%elem_of_nil&_)]
                               |x y z [H|(?&?&[]%elem_of_nil&_)] _ IH].
      * done.
      * by eapply co_member_trans.
  - destruct (add_tuples_spec st ft a Hwf) as (l & st1 & Hrun & Hwf1 & Hcl & Hoth).
    destruct (IH st1 Hwf1) as (st' & Hrun' & Hwf' & Hco).
    exists st'. unfold bind. rewrite Hrun. split; [done|]. split; [done|].
    pose proof (add_tuples_co_member _ _ _ _ _ Hcl Hoth) as Hstep.
    set (R2 := fun x y => co_member st x y ∨ cooccur ((ft, a) :: rs) x y).
    assert (Hrec : ∀ x y, (x = inl ft ∨ x = inr a) → (y = inl ft ∨ y = inr a) →
                          R2 x y).
    { intros x y Hx Hy. right. exists ft, a. split; [by left|done]. }
    assert (Hto : ∀ x, linked st ft a x → tc R2 x (inl ft)).
    { intros x [->|[->|[Hx|Hx]]]%linked_cases.
      - apply tc_once, Hrec; eauto.
      - apply tc_once, Hrec; eauto.
      - apply tc_once. by left.
      - eapply tc_l; [by left|]. apply tc_once, Hrec; eauto. }
    assert (Hfrom : ∀ y, linked st ft a y → tc R2 (inl ft) y).
    { intros y [->|[->|[Hy|Hy]]]%linked_cases.
      - apply tc_once, Hrec; eauto.
      - apply tc_once, Hrec; eauto.
      - apply tc_once. left. by apply co_member_sym.
      - eapply tc_l; [apply (Hrec _ (inr a)); eauto|].
        apply tc_once. left. by apply co_member_sym. }
    intros k1 k2. rewrite Hco. split; apply tc_incl; clear k1 k2.
    + intros x y [[H|[Lx Ly]]%Hstep|(ft' & a' & Hin & Hx & Hy)].
      * apply tc_once. by left.
      * etrans; [by apply Hto|by apply Hfrom].
      * apply tc_once. right. exists ft', a'. split; [by right|done].
    + intros x y [H|(ft' & a' & [[= -> ->]|Hin]%elem_of_cons & Hx & Hy)].
      * apply tc_once. left. apply Hstep. by left.
      * apply tc_once. left. apply Hstep. right.
        split; apply linked_cases; tauto.
      * apply tc_once. right. by exists ft', a'.
Qed.

(** ** Properties of the registry *)

Lemma wf_keys_exclusive st : wf st → keys_exclusive st.
Proof.
  intros Hwf k l1 c1 l2 c2 Hl1 Hm1 Hl2 Hm2.
  pose proof (wf_member_class_of _ _ _ _ Hwf Hl1 Hm1).
  pose proof (wf_member_class_of _ _ _ _ Hwf Hl2 Hm2). congruence.
Qed.

Lemma add_all_wf rs st st' u :
  wf st → add_all rs st = inr (u, st') → wf st'.
Proof.
  intros Hwf Hrun. destruct (add_all_closure rs st Hwf) as (st2 & H2 & Hwf2 & _).
  congruence.
Qed.

Lemma run_op_wf st op u st' :
  wf st → op_pre st op → run_op op st = inr (u, st') → wf st'.
Proof.
  intros Hwf Hpre Hrun. destruct op as [fts ats oid|self ft a|self other|ft a];
    simpl in *.
  - unfold bind in Hrun.
    destruct (new_class fts ats oid st) as [e|[l st1]] eqn:E; [done|].
    unfold ret in Hrun. simplify_eq.
    destruct (new_class_inv _ _ _ _ _ _ E) as ([Hnf Hff] & [Hna Hfa] & Hid).
    rewrite new_class_run in E by done. simplify_eq.
    destruct oid as [i|]; simpl.
    + apply wf_created; try done; lia.
    + apply wf_created; try done; try lia.
      intros l' c. by apply wf_counter_unused.
  - destruct Hpre as [c Hl]. unfold append in Hrun. unfold bind, deref in Hrun.
    rewrite (live_heap _ _ _ Hl) in Hrun.
    repeat case_decide.
    + unfold ret in Hrun. by simplify_eq.
    + destruct (add_form_tuple_inv _ _ _ _ _ Hrun) as [Hft _].
      rewrite (add_form_tuple_run _ _ _ c) in Hrun by (done || by apply live_heap).
      simplify_eq. by apply wf_add_form_tuple.
    + destruct (add_app_tuple_inv _ _ _ _ _ Hrun) as [Ha _].
      rewrite (add_app_tuple_run _ _ _ c) in Hrun by (done || by apply live_heap).
      simplify_eq. by apply wf_add_app_tuple.
    + done.
  - destruct Hpre as ([c Hl] & [o Ho] & Hne).
    pose proof Ho as [Hoh (i & Hi & Hreg)].
    rewrite (merge_run _ _ _ c o i) in Hrun
      by (done || eauto || by apply live_heap).
    simplify_eq. by apply (wf_merge st self other).
  - unfold bind in Hrun.
    destruct (add_tuples_spec st ft a Hwf) as (l & st1 & E & Hwf1 & _).
    rewrite E in Hrun. unfold ret in Hrun. by simplify_eq.
Qed.

Lemma add_tuples_wf st ft a l st' :
  wf st → add_tuples ft a st = inr (l, st') → wf st'.
Proof.
  intros Hwf Hrun.
  destruct (add_tuples_spec st ft a Hwf) as (l2 & st2 & E & Hwf2 & _).
  congruence.
Qed.

Lemma ex_two_classes_run :
  add_all [(ex_f1, ex_a1); (ex_f2, ex_a2)] empty_registry
  = inr (tt, ex_two_classes).
Proof. vm_compute. reflexivity. Qed.

Lemma ex_two_classes_wf : wf ex_two_classes.
Proof. exact (add_all_wf _ _ _ _ empty_registry_wf ex_two_classes_run). Qed.

Lemma ex_merged_run :
  add_tuples ex_f1 ex_a2 ex_two_classes = inr (0%nat, ex_merged).
Proof. vm_compute. reflexivity. Qed.

Lemma ex_merged_wf : wf ex_merged.
Proof. exact (add_tuples_wf _ _ _ _ _ ex_two_classes_wf ex_merged_run). Qed.

(** C1.  Ingesting one collection of records in two orders succeeds both
    times and puts the same keys together: two keys are in the sets of one
    live class after the first order exactly when they are after the second,
    and exactly when they are connected by a chain of records, each sharing
    a key with the next (the transitive closure of "the two keys occur on
    one input record").  Nothing is said about the ids: which class
    survives a merge depends on the order. *)
Theorem C1_ingestion_order_independent
    (rs1 rs2 : list (FormulationTuple * ApplicationTuple)) :
  rs1 ≡ₚ rs2 →
  ∃ st1 st2,
    add_all rs1 empty_registry = inr (tt, st1) ∧
    add_all rs2 empty_registry = inr (tt, st2) ∧
    (∀ k1 k2, same_class st1 k1 k2 ↔ same_class st2 k1 k2) ∧
    (∀ k1 k2, same_class st1 k1 k2 ↔ tc (cooccur rs1) k1 k2) ∧
    (∀ k1 k2, same_class st2 k1 k2 ↔ tc (cooccur rs2) k1 k2).
Proof.
  intros Hperm.
  destruct (add_all_closure rs1 _ empty_registry_wf) as (st1 & E1 & Hwf1 & H1).
  destruct (add_all_closure rs2 _ empty_registry_wf) as (st2 & E2 & Hwf2 & H2).
  assert (Hempty : ∀ x y, ¬ co_member empty_registry x y).
  { intros [?|?] y (l & Hx & _); simpl in Hx; by rewrite lookup_empty in Hx. }
  assert (Hc1 : ∀ k1 k2, same_class st1 k1 k2 ↔ tc (cooccur rs1) k1 k2).
  { intros k1 k2. rewrite same_class_co_member, H1 by done.
    split; apply tc_incl; intros x y.
    - intros [H|H]; [by destruct (Hempty x y)|by apply tc_once].
    - intros H. apply tc_once. by right. }
  assert (Hc2 : ∀ k1 k2, same_class st2 k1 k2 ↔ tc (cooccur rs2) k1 k2).
  { intros k1 k2. rewrite same_class_co_member, H2 by done.
    split; apply tc_incl; intros x y.
    - intros [H|H]; [by destruct (Hempty x y)|by apply tc_once].
    - intros H. apply tc_once. by right. }
  exists st1, st2. repeat split; try done; try apply Hc1; try apply Hc2.
  - intros H. apply Hc2. apply Hc1 in H. revert H. apply tc_incl.
    intros x y (ft & a & Hin & Hx & Hy). apply tc_once. exists ft, a.
    by rewrite <-Hperm.
  - intros H. apply Hc1. apply Hc2 in H. revert H. apply tc_incl.
    intros x y (ft & a & Hin & Hx & Hy). apply tc_once. exists ft, a.
    by rewrite Hperm.
Qed.

Lemma C1_ingestion_order_independent_witness :
  [(ex_f1, ex_a1); (ex_f2, ex_a2); (ex_f1, ex_a2)]
    ≡ₚ [(ex_f1, ex_a2); (ex_f2, ex_a2); (ex_f1, ex_a1)] ∧
  ∃ st1 st2,
    add_all [(ex_f1, ex_a1); (ex_f2, ex_a2); (ex_f1, ex_a2)] empty_registry
      = inr (tt, st1) ∧
    add_all [(ex_f1, ex_a2); (ex_f2, ex_a2); (ex_f1, ex_a1)] empty_registry
      = inr (tt, st2) ∧
    (∀ k1 k2, same_class st1 k1 k2 ↔ same_class st2 k1 k2) ∧
    (∀ k1 k2, same_class st1 k1 k2 ↔
       tc (cooccur [(ex_f1, ex_a1); (ex_f2, ex_a2); (ex_f1, ex_a2)]) k1 k2) ∧
    (∀ k1 k2, same_class st2 k1 k2 ↔
       tc (cooccur [(ex_f1, ex_a2); (ex_f2, ex_a2); (ex_f1, ex_a1)]) k1 k2).
Proof.
  assert (Hp : [(ex_f1, ex_a1); (ex_f2, ex_a2); (ex_f1, ex_a2)]
                 ≡ₚ [(ex_f1, ex_a2); (ex_f2, ex_a2); (ex_f1, ex_a1)]).
  { symmetry. exact (reverse_Permutation
      [(ex_f1, ex_a1); (ex_f2, ex_a2); (ex_f1, ex_a2)]). }
  split; [exact Hp|].
  exact (C1_ingestion_order_independent _ _ Hp).
Defined.

(** C2 (as amended).  Starting from a consistent registry, every operation
    used the way [add] and [load_summary] use it keeps the registry
    consistent: construction with the counter's id or with an explicit id
    that no instance has carried, [append] on a live class, [merge] of two
    different live classes, and [add].  Afterwards each key is in at most
    one live class, the key dictionaries agree with the membership sets of
    the live classes (so no entry points to an absorbed class), and no two
    instances, live or absorbed, carry the same id. *)
Theorem C2_operations_preserve_invariants st op u st' :
  wf st → op_pre st op → run_op op st = inr (u, st') →
  wf st' ∧ keys_exclusive st' ∧
  (∀ k l, class_of st' k = Some l → is_live st' l) ∧
  (∀ l1 l2 c1 c2 i, heap st' !! l1 = Some c1 → heap st' !! l2 = Some c2 →
                    eq_id c1 = Some i → eq_id c2 = Some i → l1 = l2).
Proof.
  intros Hwf Hpre Hrun. pose proof (run_op_wf _ _ _ _ Hwf Hpre Hrun) as Hwf'.
  split; [done|]. split; [by apply wf_keys_exclusive|]. split.
  - intros k l Hk. destruct (wf_class_of_live _ _ _ Hwf' Hk) as (c & Hl & _).
    by exists c.
  - apply (wf_ids _ Hwf').
Qed.

Lemma C2_operations_preserve_invariants_witness :
  wf ex_two_classes ∧
  op_pre ex_two_classes (OpMerge 0%nat 1%nat) ∧
  run_op (OpMerge 0%nat 1%nat) ex_two_classes = inr (tt, ex_merged) ∧
  wf ex_merged ∧ keys_exclusive ex_merged ∧
  (∀ k l, class_of ex_merged k = Some l → is_live ex_merged l) ∧
  (∀ l1 l2 c1 c2 i,
     heap ex_merged !! l1 = Some c1 → heap ex_merged !! l2 = Some c2 →
     eq_id c1 = Some i → eq_id c2 = Some i → l1 = l2).
Proof.
  assert (Hpre : op_pre ex_two_classes (OpMerge 0%nat 1%nat)).
  { split; [|split; [|lia]].
    - exists (mkEqClass {[ex_f1]} {[ex_a1]} (Some 0)).
      split; [vm_compute; reflexivity|]. exists 0.
      split; [reflexivity|vm_compute; reflexivity].
    - exists (mkEqClass {[ex_f2]} {[ex_a2]} (Some 1)).
      split; [vm_compute; reflexivity|]. exists 1.
      split; [reflexivity|vm_compute; reflexivity]. }
  assert (Hrun : run_op (OpMerge 0%nat 1%nat) ex_two_classes
                 = inr (tt, ex_merged)) by (vm_compute; reflexivity).
  split; [exact ex_two_classes_wf|]. split; [exact Hpre|].
  split; [exact Hrun|].
  exact (C2_operations_preserve_invariants _ _ _ _
           ex_two_classes_wf Hpre Hrun).
Defined.

(** C2 as stated fails: on the consistent registry in which the class with
    id 1 has been absorbed, constructing a class with [eq_id = 1] succeeds
    ([__init__] only checks the live classes), and id 1 is then carried by
    a second instance. *)
Lemma C2_counterexample :
  ¬ (∀ st op u st',
       wf st → run_op op st = inr (u, st') →
       ∀ l1 l2 c1 c2 i,
         heap st' !! l1 = Some c1 → heap st' !! l2 = Some c2 →
         eq_id c1 = Some i → eq_id c2 = Some i → l1 = l2).
Proof.
  intros H.
  pose (st' := match run_op (OpCreate [] [] (Some 1)) ex_merged with
               | inr (_, s) => s
               | inl _ => empty_registry
               end).
  assert (Hrun : run_op (OpCreate [] [] (Some 1)) ex_merged = inr (tt, st'))
    by (vm_compute; reflexivity).
  specialize (H _ _ _ _ ex_merged_wf Hrun 1%nat 2%nat
                (mkEqClass {[ex_f2]} {[ex_a2]} (Some 1))
                (mkEqClass ∅ ∅ (Some 1)) 1).
  assert (1%nat = 2%nat) as Habs; [|lia].
  apply H; vm_compute; reflexivity.
Qed.

(** C3.  In a consistent registry whose live classes are exactly
    [{f1, a1}] and [{f2, a2}], [add] of the record [(f1, a2)] returns the
    first class, which is then the only live class and has the formulation
    keys [{f1, f2}] and the application keys [{a1, a2}]; the second class
    is no longer registered. *)
Theorem C3_merge_correct st f1 a1 f2 a2 l1 l2 i1 i2 :
  wf st → f1 ≠ f2 → a1 ≠ a2 → i1 ≠ i2 →
  eq_classes st = <[i1 := l1]> {[i2 := l2]} →
  heap st !! l1 = Some (mkEqClass {[f1]} {[a1]} (Some i1)) →
  heap st !! l2 = Some (mkEqClass {[f2]} {[a2]} (Some i2)) →
  ∃ st', add_tuples f1 a2 st = inr (l1, st') ∧
    eq_classes st' = {[i1 := l1]} ∧
    heap st' !! l1 = Some (mkEqClass {[f1; f2]} {[a1; a2]} (Some i1)) ∧
    ¬ is_live st' l2.
Proof.
  intros Hwf Hf Ha Hi Hcls H1 H2.
  assert (Hne : l1 ≠ l2) by (intros ->; congruence).
  assert (Hl1 : live st l1 (mkEqClass {[f1]} {[a1]} (Some i1))).
  { split; [done|]. exists i1. split; [done|]. rewrite Hcls.
    apply lookup_insert_eq. }
  assert (Hl2 : live st l2 (mkEqClass {[f2]} {[a2]} (Some i2))).
  { split; [done|]. exists i2. split; [done|]. rewrite Hcls.
    rewrite lookup_insert_ne by done. apply lookup_singleton_eq. }
  assert (Hft : form_tuple_classes st !! f1 = Some l1).
  { apply (wf_member_class_of _ (inl f1) _ _ Hwf Hl1). simpl. set_solver. }
  assert (Hat : app_tuple_classes st !! a2 = Some l2).
  { apply (wf_member_class_of _ (inr a2) _ _ Hwf Hl2). simpl. set_solver. }
  eexists. split.
  { by apply (add_tuples_merge st f1 a2 l1 l2 _ _ i2 Hwf Hl1 Hl2). }
  unfold merged; simpl. split; [|split].
  - rewrite Hcls. rewrite delete_insert_ne by done.
    by rewrite delete_singleton_eq.
  - by rewrite lookup_insert_eq.
  - intros (c & _ & j & _ & Hj). simpl in Hj. rewrite Hcls in Hj.
    rewrite delete_insert_ne in Hj by done.
    rewrite delete_singleton_eq in Hj.
    apply lookup_insert_Some in Hj as [[_ ?]|[_ Hj]]; [done|].
    by rewrite lookup_empty in Hj.
Qed.

Lemma C3_merge_correct_witness :
  ∃ st', add_tuples ex_f1 ex_a2 ex_two_classes = inr (0%nat, st') ∧
    eq_classes st' = {[0 := 0%nat]} ∧
    heap st' !! 0%nat
      = Some (mkEqClass {[ex_f1; ex_f2]} {[ex_a1; ex_a2]} (Some 0)) ∧
    ¬ is_live st' 1%nat.
Proof.
  apply (C3_merge_correct ex_two_classes ex_f1 ex_a1 ex_f2 ex_a2
           0%nat 1%nat 0 1 ex_two_classes_wf).
  - discriminate.
  - discriminate.
  - lia.
  - vm_compute. reflexivity.
  - vm_compute. reflexivity.
  - vm_compute. reflexivity.
Defined.

Lemma add_all_co_member_mono rs st st' u x y :
  wf st → add_all rs st = inr (u, st') →
  co_member st x y → co_member st' x y.
Proof.
  intros Hwf Hrun Hco.
  destruct (add_all_closure rs st Hwf) as (st2 & E & _ & Hcl).
  assert (st2 = st') as -> by congruence.
  apply Hcl, tc_once. by left.
Qed.

(** C4.  Once a pair has been ingested, then after any further records,
    ingesting the same pair again succeeds and leaves the registry exactly
    as it was (so no membership set and no count of live classes changes),
    and [get] finds a class, the same one, for both of its keys. *)
Theorem C4_add_idempotent st ft a l st1 rs st2 :
  wf st →
  add_tuples ft a st = inr (l, st1) →
  add_all rs st1 = inr (tt, st2) →
  ∃ l', add_tuples ft a st2 = inr (l', st2) ∧
        get (TForm ft) st2 = inr (Some l', st2) ∧
        get (TApp a) st2 = inr (Some l', st2).
Proof.
  intros Hwf Hadd Hrest.
  destruct (add_tuples_spec st ft a Hwf) as (l0 & st0 & E & Hwf1 & Hcl & _).
  assert (l0 = l ∧ st0 = st1) as [-> ->] by (split; congruence).
  assert (Hco : co_member st1 (inl ft) (inr a)).
  { exists l. rewrite !Hcl. rewrite !decide_True; [done|..].
    - right. by left.
    - by left. }
  pose proof (add_all_wf _ _ _ _ Hwf1 Hrest) as Hwf2.
  destruct (add_all_co_member_mono _ _ _ _ _ _ Hwf1 Hrest Hco)
    as (l' & Hf & Ha).
  simpl in Hf, Ha. exists l'. split; [by apply add_tuples_same|].
  unfold get. unfold_M. by rewrite Hf, Ha.
Qed.

Lemma C4_add_idempotent_witness :
  wf ex_two_classes ∧
  add_tuples ex_f1 ex_a2 ex_two_classes = inr (0%nat, ex_merged) ∧
  add_all [] ex_merged = inr (tt, ex_merged) ∧
  ∃ l', add_tuples ex_f1 ex_a2 ex_merged = inr (l', ex_merged) ∧
        get (TForm ex_f1) ex_merged = inr (Some l', ex_merged) ∧
        get (TApp ex_a2) ex_merged = inr (Some l', ex_merged).
Proof.
  split; [exact ex_two_classes_wf|]. split; [exact ex_merged_run|].
  split; [reflexivity|].
  exact (C4_add_idempotent ex_two_classes ex_f1 ex_a2 0%nat ex_merged []
           ex_merged ex_two_classes_wf ex_merged_run eq_refl).
Defined.

(** ** Serialization *)

Lemma members_of_created st fts ats i next j :
  wf st →
  members_of (created st fts ats i next) j
  = if decide (j = i) then Some (list_to_set fts, list_to_set ats)
    else members_of st j.
Proof.
  intros Hwf. unfold members_of, created; simpl.
  destruct (decide (j = i)) as [->|Hne].
  - rewrite lookup_insert_eq. simpl. by rewrite lookup_insert_eq.
  - rewrite lookup_insert_ne by done.
    destruct (eq_classes st !! j) as [l|] eqn:E; simpl; [|done].
    destruct (wf_classes _ Hwf _ _ E) as (c & Hc & _).
    rewrite lookup_insert_ne; [done|]. intros <-.
    by rewrite fresh_loc_unused in Hc.
Qed.

Lemma load_records_spec rs st0 :
  wf st0 →
  NoDup (r_eq_id <$> rs) →
  (∀ r, r ∈ rs → never_allocated st0 (r_eq_id r)) →
  NoDup (rs ≫= r_form_tuples) →
  (∀ ft, ft ∈ rs ≫= r_form_tuples → form_tuple_classes st0 !! ft = None) →
  NoDup (rs ≫= r_app_tuples) →
  (∀ a, a ∈ rs ≫= r_app_tuples → app_tuple_classes st0 !! a = None) →
  ∃ st', load_records rs st0 = inr (tt, st') ∧ wf st' ∧
    (∀ r, r ∈ rs →
       members_of st' (r_eq_id r)
       = Some (list_to_set (r_form_tuples r), list_to_set (r_app_tuples r))) ∧
    (∀ i, i ∉ r_eq_id <$> rs → members_of st' i = members_of st0 i).
Proof.
  revert st0. induction rs as [|r rs IH];
    intros st0 Hwf Hids Hnew Hnf Hff Hna Hfa; simpl.
  - exists st0. split; [done|]. split; [done|]. split; [|done].
    by intros r ?%elem_of_nil.
  - simpl in *. apply NoDup_cons in Hids as [Hid Hids].
    apply NoDup_app in Hnf as (Hnf1 & Hnf2 & Hnf3).
    apply NoDup_app in Hna as (Hna1 & Hna2 & Hna3).
    assert (Hr : never_allocated st0 (r_eq_id r)) by (apply Hnew; by left).
    set (next := Z.max (next_eq_id st0) (r_eq_id r + 1)).
    set (st1 := created st0 (r_form_tuples r) (r_app_tuples r) (r_eq_id r) next).
    assert (Hrun : new_class (r_form_tuples r) (r_app_tuples r)
                     (Some (r_eq_id r)) st0
                   = inr (fresh (dom (heap st0)), st1)).
    { apply (new_class_run st0 _ _ (Some (r_eq_id r))); try done.
      - intros ft Hin. apply Hff. set_solver.
      - intros a Hin. apply Hfa. set_solver.
      - simpl. by apply wf_unused_not_registered. }
    assert (Hwf1 : wf st1).
    { apply wf_created; try done; try (unfold next; lia).
      - intros ft Hin. apply Hff. set_solver.
      - intros a Hin. apply Hfa. set_solver. }
    destruct (IH st1) as (st' & Hload & Hwf' & Hin' & Hout'); try done.
    + intros r' Hr' l c. unfold st1, created; simpl.
      destruct (decide (l = fresh (dom (heap st0)))) as [->|Hnl].
      * rewrite lookup_insert_eq. intros [= <-]; simpl. intros [= Heq].
        apply Hid. rewrite Heq. apply list_elem_of_fmap. by exists r'.
      * rewrite lookup_insert_ne by done. apply Hnew. by right.
    + intros ft Hin.
      change (class_of st1 (inl ft) = None). unfold st1.
      rewrite class_of_created. rewrite decide_False.
      * apply Hff. set_solver.
      * intros Hm%elem_of_list_to_set. by apply (Hnf2 ft).
    + intros a Hin.
      change (class_of st1 (inr a) = None). unfold st1.
      rewrite class_of_created. rewrite decide_False.
      * apply Hfa. set_solver.
      * intros Hm%elem_of_list_to_set. by apply (Hna2 a).
    + exists st'. unfold bind. rewrite Hrun. split; [done|]. split; [done|].
      split.
      * intros r' [->|Hr']%elem_of_cons; [|by apply Hin'].
        rewrite Hout' by done. unfold st1.
        rewrite members_of_created by done. by rewrite decide_True.
      * intros i Hi. apply not_elem_of_cons in Hi as [Hne Hi].
        rewrite Hout' by done. unfold st1.
        rewrite members_of_created by done. by rewrite decide_False.
Qed.

Lemma insert_sorted_perm {A} (leb : A → A → bool) x l :
  insert_sorted leb x l ≡ₚ x :: l.
Proof.
  induction l as [|y l IH]; simpl; [done|].
  destruct (leb x y); [done|]. rewrite IH. apply perm_swap.
Qed.

Lemma py_sorted_perm {A} (leb : A → A → bool) l : py_sorted leb l ≡ₚ l.
Proof.
  induction l as [|x l IH]; simpl; [done|].
  fold (py_sorted leb l). by rewrite insert_sorted_perm, IH.
Qed.

Lemma sorted_form_tuples_perm s : sorted_form_tuples s ≡ₚ elements s.
Proof. apply py_sorted_perm. Qed.

Lemma sorted_app_tuples_perm s : sorted_app_tuples s ≡ₚ elements s.
Proof. apply py_sorted_perm. Qed.

Lemma sorted_form_tuples_set s : list_to_set (sorted_form_tuples s) = s.
Proof.
  apply set_eq. intros x.
  by rewrite elem_of_list_to_set, sorted_form_tuples_perm, elem_of_elements.
Qed.

Lemma sorted_app_tuples_set s : list_to_set (sorted_app_tuples s) = s.
Proof.
  apply set_eq. intros x.
  by rewrite elem_of_list_to_set, sorted_app_tuples_perm, elem_of_elements.
Qed.

Lemma record_at_inv st l r :
  record_at st l = Some r →
  ∃ c, heap st !! l = Some c ∧ eq_id c = Some (r_eq_id r) ∧
       r_form_tuples r = sorted_form_tuples (form_tuples c) ∧
       r_app_tuples r = sorted_app_tuples (app_tuples c).
Proof.
  unfold record_at, to_dict. intros H.
  destruct (heap st !! l) as [c|]; simpl in H; [|done].
  destruct (eq_id c) as [i|] eqn:E; [|done]. simplify_eq. by exists c.
Qed.

(** The records written for a duplicate-free list of registered classes. *)
Lemma records_props st ps rs :
  wf st → NoDup ps.*1 →
  (∀ i l, (i, l) ∈ ps → eq_classes st !! i = Some l) →
  Forall2 (fun p r => record_at st p.2 = Some r) ps rs →
  r_eq_id <$> rs = ps.*1 ∧
  NoDup (rs ≫= r_form_tuples) ∧ NoDup (rs ≫= r_app_tuples) ∧
  (∀ ft, ft ∈ rs ≫= r_form_tuples →
     ∃ i l, (i, l) ∈ ps ∧ form_tuple_classes st !! ft = Some l) ∧
  (∀ a, a ∈ rs ≫= r_app_tuples →
     ∃ i l, (i, l) ∈ ps ∧ app_tuple_classes st !! a = Some l) ∧
  (∀ r, r ∈ rs →
     members_of st (r_eq_id r)
     = Some (list_to_set (r_form_tuples r), list_to_set (r_app_tuples r))).
Proof.
  intros Hwf Hnd Hreg HF. induction HF as [|[i l] r ps rs Hr HF IH]; simpl.
  - repeat split; try constructor; by intros ? ?%elem_of_nil.
  - simpl in *. apply NoDup_cons in Hnd as [Hi Hnd].
    destruct IH as (Hids & Hnf & Hna & Hfk & Hak & Hmem); [done|..].
    { intros i' l' Hin. apply Hreg. by right. }
    destruct (record_at_inv _ _ _ Hr) as (c & Hc & Hid & Hrf & Hra).
    assert (Hil : eq_classes st !! i = Some l) by (apply Hreg; by left).
    destruct (wf_classes _ Hwf _ _ Hil) as (c' & Hc' & Hid').
    assert (c' = c) as -> by congruence.
    assert (r_eq_id r = i) as Hri by congruence.
    assert (Hlive : live st l c) by (split; [done|]; eauto).
    assert (Hother : ∀ i' l', (i', l') ∈ ps → l' ≠ l).
    { intros i' l' Hin ->. apply Hi.
      assert (eq_classes st !! i' = Some l) as Hreg'
        by (apply Hreg; by right).
      destruct (wf_classes _ Hwf _ _ Hreg') as (c2 & Hc2 & Hid2).
      assert (i' = i) as -> by congruence.
      apply list_elem_of_fmap. by exists (i, l). }
    split; [by f_equal|]. split; [|split; [|split; [|split]]].
    + apply NoDup_app. split; [|split; [|done]].
      * rewrite Hrf, sorted_form_tuples_perm. apply NoDup_elements.
      * intros ft Hin Hin'. destruct (Hfk _ Hin') as (i' & l' & Hp & Hcl).
        rewrite Hrf, sorted_form_tuples_perm, elem_of_elements in Hin.
        pose proof (wf_member_class_of _ (inl ft) _ _ Hwf Hlive Hin) as H.
        simpl in H. apply (Hother _ _ Hp). congruence.
    + apply NoDup_app. split; [|split; [|done]].
      * rewrite Hra, sorted_app_tuples_perm. apply NoDup_elements.
      * intros a Hin Hin'. destruct (Hak _ Hin') as (i' & l' & Hp & Hcl).
        rewrite Hra, sorted_app_tuples_perm, elem_of_elements in Hin.
        pose proof (wf_member_class_of _ (inr a) _ _ Hwf Hlive Hin) as H.
        simpl in H. apply (Hother _ _ Hp). congruence.
    + intros ft [Hin|Hin]%elem_of_app.
      * rewrite Hrf, sorted_form_tuples_perm, elem_of_elements in Hin.
        exists i, l. split; [by left|].
        apply (wf_member_class_of _ (inl ft) _ _ Hwf Hlive Hin).
      * destruct (Hfk _ Hin) as (i' & l' & Hp & Hcl). exists i', l'.
        split; [by right|done].
    + intros a [Hin|Hin]%elem_of_app.
      * rewrite Hra, sorted_app_tuples_perm, elem_of_elements in Hin.
        exists i, l. split; [by left|].
        apply (wf_member_class_of _ (inr a) _ _ Hwf Hlive Hin).
      * destruct (Hak _ Hin) as (i' & l' & Hp & Hcl). exists i', l'.
        split; [by right|done].
    + intros r' [->|Hin]%elem_of_cons; [|by apply Hmem].
      unfold members_of. rewrite Hri, Hil. simpl. rewrite Hc. simpl.
      by rewrite Hrf, Hra, sorted_form_tuples_set, sorted_app_tuples_set.
Qed.

Lemma dump_total st :
  wf st →
  ∃ rs, dump st = Some rs ∧
        Forall2 (fun p r => record_at st p.2 = Some r)
                (map_to_list (eq_classes st)) rs.
Proof.
  intros Hwf.
  assert (is_Some (dump st)) as [rs Hrs].
  { unfold dump. apply mapM_is_Some. unfold all. apply Forall_fmap.
    apply Forall_forall. intros [i l] Hin%elem_of_map_to_list. simpl.
    destruct (wf_classes _ Hwf _ _ Hin) as (c & Hc & Hid).
    unfold record_at, to_dict. rewrite Hc. simpl. rewrite Hid. eauto. }
  exists rs. split; [done|]. unfold dump, all in Hrs.
  apply mapM_Some in Hrs. by apply Forall2_fmap_l in Hrs.
Qed.

Lemma id_of_members st k i :
  wf st →
  id_of st k = Some i ↔
  ∃ F A, members_of st i = Some (F, A) ∧
         match k with inl ft => ft ∈ F | inr a => a ∈ A end.
Proof.
  intros Hwf. unfold id_of, members_of. split.
  - intros H. destruct (class_of st k) as [l|] eqn:Hk; simpl in H; [|done].
    destruct (heap st !! l) as [c|] eqn:Hc; simpl in H; [|done].
    destruct (wf_class_of_live _ _ _ Hwf Hk) as (c' & Hl & Hm).
    pose proof Hl as [Hc' (j & Hj & Hreg)].
    assert (c' = c) as -> by congruence. assert (j = i) as -> by congruence.
    exists (form_tuples c), (app_tuples c). rewrite Hreg. simpl.
    rewrite Hc. simpl. split; [done|]. by destruct k.
  - intros (F & A & H & Hm).
    destruct (eq_classes st !! i) as [l|] eqn:Hreg; simpl in H; [|done].
    destruct (heap st !! l) as [c|] eqn:Hc; simpl in H; [|done].
    simplify_eq.
    destruct (wf_classes _ Hwf _ _ Hreg) as (c' & Hc' & Hid).
    assert (c' = c) as -> by congruence.
    assert (Hl : live st l c) by (split; [done|]; eauto).
    assert (Hk : class_of st k = Some l).
    { apply (wf_member_class_of _ _ _ c Hwf Hl). by destruct k. }
    rewrite Hk. simpl. by rewrite Hc.
Qed.

Lemma id_of_determined st st' :
  wf st → wf st' →
  (∀ i, members_of st' i = members_of st i) →
  ∀ k, id_of st' k = id_of st k.
Proof.
  intros Hwf Hwf' Hmem k.
  destruct (id_of st' k) as [i|] eqn:E'.
  - apply (id_of_members _ _ _ Hwf') in E' as (F & A & HF & Hm).
    rewrite Hmem in HF. symmetry. apply (id_of_members _ _ _ Hwf). eauto.
  - destruct (id_of st k) as [i|] eqn:E; [|done].
    apply (id_of_members _ _ _ Hwf) in E as (F & A & HF & Hm).
    rewrite <-Hmem in HF.
    assert (id_of st' k = Some i) by (apply (id_of_members _ _ _ Hwf'); eauto).
    congruence.
Qed.

(** C5.  A consistent registry can always be written out: every live class
    yields its [to_dict] record.  Loading those records, in the order
    written or in any other, into the empty registry succeeds and gives a
    consistent registry in which every id names the same formulation-key
    and application-key sets as before, and every key belongs to the class
    with the same id as before. *)
Theorem C5_serialization_round_trip st :
  wf st →
  ∃ rs, dump st = Some rs ∧
    ∀ rs', rs' ≡ₚ rs →
      ∃ st', load_summary rs' empty_registry = inr (tt, st') ∧ wf st' ∧
        (∀ i, members_of st' i = members_of st i) ∧
        (∀ k, id_of st' k = id_of st k).
Proof.
  intros Hwf. destruct (dump_total st Hwf) as (rs & Hdump & HF).
  exists rs. split; [done|]. intros rs' Hperm.
  destruct (records_props st (map_to_list (eq_classes st)) rs Hwf
              (NoDup_fst_map_to_list _))
    as (Hids & Hnf & Hna & _ & _ & Hmem); [|done|].
  { intros i l. apply elem_of_map_to_list. }
  destruct (load_records_spec rs' empty_registry) as (st' & Hload & Hwf' & Hin & Hout).
  - apply empty_registry_wf.
  - rewrite Hperm, Hids. apply NoDup_fst_map_to_list.
  - intros r _ l c Hc. simpl in Hc. by rewrite lookup_empty in Hc.
  - by rewrite Hperm.
  - intros ft _. apply lookup_empty.
  - by rewrite Hperm.
  - intros a _. apply lookup_empty.
  - assert (Hm : ∀ i, members_of st' i = members_of st i).
    { intros i. destruct (decide (i ∈ r_eq_id <$> rs')) as [Hi|Hi].
      - apply list_elem_of_fmap in Hi as (r & -> & Hr).
        rewrite Hin by done. symmetry. apply Hmem. by rewrite <-Hperm.
      - rewrite Hout by done. unfold members_of at 1. simpl.
        rewrite lookup_empty. simpl.
        rewrite Hperm, Hids in Hi. unfold members_of.
        destruct (eq_classes st !! i) as [l|] eqn:E; [|done].
        destruct Hi. apply list_elem_of_fmap. exists (i, l).
        split; [done|]. by apply elem_of_map_to_list. }
    exists st'. split; [|split; [done|split; [done|]]].
    + unfold load_summary. unfold_M. by rewrite map_size_empty.
    + by apply id_of_determined.
Qed.

Lemma C5_serialization_round_trip_witness :
  ∃ rs, dump ex_merged = Some rs ∧
    ∀ rs', rs' ≡ₚ rs →
      ∃ st', load_summary rs' empty_registry = inr (tt, st') ∧ wf st' ∧
        (∀ i, members_of st' i = members_of ex_merged i) ∧
        (∀ k, id_of st' k = id_of ex_merged k).
Proof. exact (C5_serialization_round_trip ex_merged ex_merged_wf). Defined.

(** ** Key construction *)






Lemma list_times_singleton {A} (x : A) n : list_times [x] n = replicate n x.
Proof.
  unfold list_times. induction n as [|n IH]; simpl; [done|]. by rewrite IH.
Qed.



(** A difference in length alone does not make [form_tuple] fail: the
    record with the single ingredient ESTRADIOL and the strength text
    [2MG;1MG] parses to one ingredient and two strengths, and [form_tuple]
    returns a tuple. *)
Lemma form_tuple_length_mismatch_accepted :
  ¬ (∀ row strs,
       parse_strengths (row_strength row)
         (length (re_split semicolon_re (row_ingredient row))) row = inr strs →
       length (re_split semicolon_re (row_ingredient row)) ≠ length strs →
       ∃ e, form_tuple row = inl e).
Proof.
  intros H.
  destruct (H ex_row_single ["2MG"; "1MG"]) as [e He].
  - vm_compute. reflexivity.
  - vm_compute. lia.
  - vm_compute in He. discriminate.
Qed.

Lemma string_compare_refl x : String.compare x x = Eq.
Proof.
  induction x as [|a x IH]; simpl; [done|].
  unfold Ascii.compare. by rewrite N.compare_refl.
Qed.

Lemma pair_leb_same x a b : pair_leb (x, a) (x, b) = String.leb a b.
Proof. unfold pair_leb; simpl. by rewrite string_compare_refl. Qed.

Lemma insert_sorted_same x s l n :
  length l = n →
  insert_sorted pair_leb (x, s) (zip (replicate n x) l)
  = zip (replicate (S n) x) (insert_sorted String.leb s l).
Proof.
  revert n. induction l as [|y l IH]; intros n Hn; simpl in *.
  - by subst n.
  - destruct n as [|n]; [done|]. simpl. rewrite pair_leb_same.
    destruct (String.leb s y); simpl; [done|].
    rewrite IH by lia. done.
Qed.

Lemma py_sorted_same x l :
  py_sorted pair_leb (zip (replicate (length l) x) l)
  = zip (replicate (length l) x) (py_sorted String.leb l).
Proof.
  induction l as [|y l IH]; simpl; [done|].
  fold (py_sorted pair_leb (zip (replicate (length l) x) l)).
  fold (py_sorted String.leb l). rewrite IH.
  assert (length (py_sorted String.leb l) = length l) as Hlen
    by (by rewrite py_sorted_perm).
  rewrite <-Hlen at 1. rewrite insert_sorted_same by done.
  by rewrite Hlen.
Qed.

(** When the ingredient field is a single ingredient and
    [parse_strengths] yields n > 1 strengths, [form_tuple] raises nothing
    and returns the tuple whose ingredient field is the ingredient n times,
    joined by a semicolon and a blank, and whose strength field joins the n
    strengths the same way; the pairs are sorted, so the strengths appear
    in sorted order. *)
Theorem form_tuple_single_ingredient_replicated row x strs :
  re_split semicolon_re (row_ingredient row) = [x] →
  parse_strengths (row_strength row) 1 row = inr strs →
  (1 < length strs)%nat →
  form_tuple row
  = inr (mkFormulationTuple
           (join "; " (replicate (length strs) x))
           (re_sub (RLit "; ") ";" (row_df_route row))
           (join "; " (py_sorted String.leb strs))).
Proof.
  intros Hing Hs Hn. unfold form_tuple. cbv zeta. rewrite Hing.
  change (length [x]) with 1%nat. rewrite Hs.
  destruct (decide (1%nat = 1%nat)) as [_|?]; [|done].
  rewrite list_times_singleton, length_replicate.
  rewrite decide_False by (intros H; by apply H).
  rewrite py_sorted_same.
  assert (length (py_sorted String.leb strs) = length strs) as Hlen
    by (by rewrite py_sorted_perm).
  set (ps := zip (replicate (length strs) x) (py_sorted String.leb strs)).
  assert (H1 : ps.*1 = replicate (length strs) x).
  { apply fst_zip. rewrite length_replicate. lia. }
  assert (H2 : ps.*2 = py_sorted String.leb strs).
  { apply snd_zip. rewrite length_replicate. lia. }
  assert (Hz : length ps = length strs).
  { unfold ps. rewrite length_zip, length_replicate. lia. }
  clearbody ps. destruct ps as [|p l]; [simpl in Hz; lia|].
  by rewrite <-H1, <-H2.
Qed.

Lemma form_tuple_single_ingredient_replicated_witness :
  re_split semicolon_re (row_ingredient ex_row_single) = ["ESTRADIOL"] ∧
  parse_strengths (row_strength ex_row_single) 1 ex_row_single
    = inr ["2MG"; "1MG"] ∧
  (1 < length ["2MG"; "1MG"])%nat ∧
  form_tuple ex_row_single
  = inr (mkFormulationTuple
           (join "; " (replicate (length ["2MG"; "1MG"]) "ESTRADIOL"))
           (re_sub (RLit "; ") ";" (row_df_route ex_row_single))
           (join "; " (py_sorted String.leb ["2MG"; "1MG"]))).
Proof.
  assert (H1 : re_split semicolon_re (row_ingredient ex_row_single)
               = ["ESTRADIOL"]) by (vm_compute; reflexivity).
  assert (H2 : parse_strengths (row_strength ex_row_single) 1 ex_row_single
               = inr ["2MG"; "1MG"]) by (vm_compute; reflexivity).
  assert (H3 : (1 < length ["2MG"; "1MG"])%nat) by (simpl; lia).
  split; [exact H1|]. split; [exact H2|]. split; [exact H3|].
  exact (form_tuple_single_ingredient_replicated ex_row_single "ESTRADIOL"
           ["2MG"; "1MG"] H1 H2 H3).
Defined.

(** ** Further properties of the registry *)

(** What one [add] does to the number of classes: one more when both keys
    are new, one less when the keys belong to two different classes, and
    no change otherwise. *)
Theorem add_changes_class_count st ft a l st' :
  wf st → add_tuples ft a st = inr (l, st') →
  len_classes st' =
    match form_tuple_classes st !! ft, app_tuple_classes st !! a with
    | None, None => S (len_classes st)
    | Some l1, Some l2 =>
        if decide (l1 = l2) then len_classes st else pred (len_classes st)
    | _, _ => len_classes st
    end.
Proof.
  intros Hwf Hrun. unfold len_classes.
  destruct (form_tuple_classes st !! ft) as [l1|] eqn:Hft;
    destruct (app_tuple_classes st !! a) as [l2|] eqn:Ha.
  - destruct (wf_class_of_live _ (inl ft) _ Hwf Hft) as (c & Hl1 & _).
    destruct (wf_class_of_live _ (inr a) _ Hwf Ha) as (o & Hl2 & _).
    destruct (decide (l1 = l2)) as [<-|Hne].
    + rewrite (add_tuples_same st ft a l1) in Hrun by done. by simplify_eq.
    + pose proof Hl2 as [_ (i & Hi & Hreg)].
      rewrite (add_tuples_merge st ft a l1 l2 c o i) in Hrun by done.
      simplify_eq. simpl. apply map_size_delete_Some. eauto.
  - destruct (wf_class_of_live _ (inl ft) _ Hwf Hft) as (c & Hl1 & _).
    rewrite (add_tuples_app st ft a l1 c) in Hrun by done. by simplify_eq.
  - destruct (wf_class_of_live _ (inr a) _ Hwf Ha) as (c & Hl2 & _).
    rewrite (add_tuples_form st ft a l2 c) in Hrun by done. by simplify_eq.
  - rewrite add_tuples_new in Hrun by done. simplify_eq. simpl.
    apply map_size_insert_None, wf_unused_not_registered; [done|].
    intros l c. by apply wf_counter_unused.
Qed.

Lemma add_changes_class_count_witness :
  wf ex_two_classes ∧
  add_tuples ex_f1 ex_a2 ex_two_classes = inr (0%nat, ex_merged) ∧
  len_classes ex_merged =
    match form_tuple_classes ex_two_classes !! ex_f1,
          app_tuple_classes ex_two_classes !! ex_a2 with
    | None, None => S (len_classes ex_two_classes)
    | Some l1, Some l2 =>
        if decide (l1 = l2) then len_classes ex_two_classes
        else pred (len_classes ex_two_classes)
    | _, _ => len_classes ex_two_classes
    end.
Proof.
  split; [exact ex_two_classes_wf|]. split; [exact ex_merged_run|].
  exact (add_changes_class_count _ _ _ _ _ ex_two_classes_wf ex_merged_run).
Defined.

(** [add] never takes a key out of the registry and never separates two
    keys: after any further records, a registered key is still registered
    and two keys of one class are still in one class. *)
Theorem add_all_keeps_keys_together rs st st' :
  wf st → add_all rs st = inr (tt, st') →
  (∀ k, is_Some (class_of st k) → is_Some (class_of st' k)) ∧
  (∀ k1 k2, same_class st k1 k2 → same_class st' k1 k2).
Proof.
  intros Hwf Hrun. pose proof (add_all_wf _ _ _ _ Hwf Hrun) as Hwf'. split.
  - intros k [l Hk].
    destruct (add_all_co_member_mono rs st st' tt k k Hwf Hrun) as (l' & Hl' & _).
    + by exists l.
    + by exists l'.
  - intros k1 k2 Hs. apply same_class_co_member; [done|].
    apply (add_all_co_member_mono rs st st' tt); [done..|].
    by apply same_class_co_member.
Qed.

Lemma add_all_keeps_keys_together_witness :
  wf ex_two_classes ∧
  add_all [(ex_f1, ex_a2)] ex_two_classes = inr (tt, ex_merged) ∧
  (∀ k, is_Some (class_of ex_two_classes k) → is_Some (class_of ex_merged k)) ∧
  (∀ k1 k2, same_class ex_two_classes k1 k2 → same_class ex_merged k1 k2).
Proof.
  assert (Hrun : add_all [(ex_f1, ex_a2)] ex_two_classes = inr (tt, ex_merged)).
  { simpl. unfold bind. change (add_tuples (ex_f1, ex_a2).1 (ex_f1, ex_a2).2)
      with (add_tuples ex_f1 ex_a2). by rewrite ex_merged_run. }
  split; [exact ex_two_classes_wf|]. split; [exact Hrun|].
  exact (add_all_keeps_keys_together _ _ _ ex_two_classes_wf Hrun).
Defined.

(** [merge] does not check that the other class is a different one: merging
    a live class into itself succeeds, takes it out of [eq_classes] and
    leaves every key registered to it, so the keys of that class then
    belong to no live class.  ([add] never does this: it merges only when
    the two classes differ.) *)
Theorem merge_into_itself_unregisters st l c i :
  wf st → live st l c → eq_id c = Some i →
  ∃ st', merge l l st = inr (tt, st') ∧
    eq_classes st' = delete i (eq_classes st) ∧
    (∀ k, class_of st' k = class_of st k) ∧
    (∀ k, member c k → class_of st' k = Some l) ∧
    ¬ is_live st' l.
Proof.
  intros Hwf Hl Hi. pose proof Hl as [Hc (j & Hj & Hreg)].
  assert (j = i) as -> by congruence.
  eexists. split.
  { unfold merge. unfold_M.
    repeat first
      [ rewrite lookup_insert_eq | rewrite Hc | rewrite Hi | rewrite Hreg
      | progress simpl ].
    reflexivity. }
  simpl.
  assert (Hsame : ∀ k,
    class_of
      {| heap := <[l := set_app_tuples
                          (set_form_tuples c (form_tuples c ∪ form_tuples c))
                          (app_tuples c ∪ app_tuples c)]>
                   (<[l := set_form_tuples c (form_tuples c ∪ form_tuples c)]>
                      (heap st));
         eq_classes := delete i (eq_classes st);
         next_eq_id := next_eq_id st;
         form_tuple_classes :=
           set_fold (fun ft m => <[ft := l]> m) (form_tuple_classes st)
                    (form_tuples c ∪ form_tuples c);
         app_tuple_classes :=
           set_fold (fun a m => <[a := l]> m) (app_tuple_classes st)
                    (app_tuples c ∪ app_tuples c) |} k
    = class_of st k).
  { intros [ft|a]; simpl; rewrite set_fold_insert_lookup; case_decide as Hin;
      try done; symmetry.
    - apply (wf_member_class_of _ (inl ft) _ c Hwf Hl). simpl. set_solver.
    - apply (wf_member_class_of _ (inr a) _ c Hwf Hl). simpl. set_solver. }
  split; [done|]. split; [exact Hsame|]. split.
  - intros k Hm. rewrite Hsame. by eapply wf_member_class_of.
  - intros (c' & Hc' & j & Hj' & Hreg'). simpl in *.
    rewrite lookup_insert_eq in Hc'. simplify_eq. simpl in Hj'.
    assert (j = i) as -> by congruence.
    by rewrite lookup_delete_eq in Hreg'.
Qed.

Lemma merge_into_itself_unregisters_witness :
  ∃ st', merge 0%nat 0%nat ex_merged = inr (tt, st') ∧
    eq_classes st' = delete 0 (eq_classes ex_merged) ∧
    (∀ k, class_of st' k = class_of ex_merged k) ∧
    (∀ k, member (mkEqClass {[ex_f1; ex_f2]} {[ex_a1; ex_a2]} (Some 0)) k →
          class_of st' k = Some 0%nat) ∧
    ¬ is_live st' 0%nat.
Proof.
  apply (merge_into_itself_unregisters ex_merged 0%nat
           (mkEqClass {[ex_f1; ex_f2]} {[ex_a1; ex_a2]} (Some 0)) 0
           ex_merged_wf).
  - split; [vm_compute; reflexivity|]. exists 0.
    split; [reflexivity|vm_compute; reflexivity].
  - reflexivity.
Defined.

(** ** Dictionaries, aggregation and tables *)

Section PyDictFacts.
Context {K V : Type} `{EqDecision K}.
Implicit Types d : pydict K V.

Lemma dict_get_upsert f k k' d :
  dict_get k' (dict_upsert f k d)
  = if decide (k' = k) then Some (f (dict_get k d)) else dict_get k' d.
Proof.
  induction d as [|[k0 v] d IH]; simpl.
  - repeat case_decide; congruence.
  - destruct (decide (k = k0)) as [->|Hne]; simpl.
    + repeat case_decide; congruence.
    + rewrite IH. repeat case_decide; congruence.
Qed.

Lemma dict_keys_upsert f k d :
  dict_keys (dict_upsert f k d)
  = if decide (k ∈ dict_keys d) then dict_keys d else (dict_keys d ++ [k])%list.
Proof.
  unfold dict_keys. induction d as [|[k0 v] d IH]; [done|].
  cbn [dict_upsert]. destruct (decide (k = k0)) as [->|Hne].
  - rewrite !fmap_cons. cbn [fst]. by rewrite decide_True by set_solver.
  - rewrite !fmap_cons, IH. cbn [fst]. destruct (decide (k ∈ d.*1)).
    + by rewrite decide_True by set_solver.
    + by rewrite decide_False by set_solver.
Qed.

Lemma dict_keys_upsert_NoDup f k d :
  NoDup (dict_keys d) → NoDup (dict_keys (dict_upsert f k d)).
Proof.
  intros Hnd. rewrite dict_keys_upsert. case_decide; [done|].
  apply NoDup_app. split; [done|]. split; [|apply NoDup_singleton].
  intros x Hx ->%list_elem_of_singleton. done.
Qed.

Lemma dict_keys_upsert_elem f k k' d :
  k' ∈ dict_keys (dict_upsert f k d) ↔ k' = k ∨ k' ∈ dict_keys d.
Proof. rewrite dict_keys_upsert. case_decide; set_solver. Qed.

Lemma dict_get_is_Some k d : is_Some (dict_get k d) ↔ k ∈ dict_keys d.
Proof.
  unfold dict_keys. induction d as [|[k0 v] d IH].
  - split; [by intros [? ?]|by intros ?%elem_of_nil].
  - cbn [dict_get]. rewrite fmap_cons. cbn [fst]. case_decide as Hk.
    + subst. split; [set_solver|eauto].
    + rewrite IH. set_solver.
Qed.
End PyDictFacts.

Section AggFacts.
Context {A B K : Type} `{EqDecision K}.

Lemma foldl_setdefault_lookup (proc : A → K) (proc2 : A → B) items
    (d0 : pydict K (list B)) k :
  dict_get k
    (foldl (fun res item => dict_setdefault_append (proc item) (proc2 item) res)
           d0 items)
  = match filter (fun x => proc x = k) items with
    | [] => dict_get k d0
    | l => Some (default [] (dict_get k d0) ++ (proc2 <$> l))%list
    end.
Proof.
  revert d0. induction items as [|x items IH]; intros d0; [done|].
  cbn [foldl]. rewrite IH.
  assert (Hget : dict_get k (dict_setdefault_append (proc x) (proc2 x) d0)
                 = if decide (k = proc x)
                   then Some (default [] (dict_get (proc x) d0) ++ [proc2 x])%list
                   else dict_get k d0)
    by (unfold dict_setdefault_append; by rewrite dict_get_upsert).
  rewrite Hget, filter_cons. destruct (decide (proc x = k)) as [<-|Hne].
  - rewrite decide_True by done.
    destruct (filter _ items) as [|y l]; [done|].
    rewrite (fmap_cons proc2 x). simpl. by rewrite <-app_assoc.
  - by rewrite decide_False by done.
Qed.

Lemma foldl_setdefault_keys_NoDup (proc : A → K) (proc2 : A → B) items
    (d0 : pydict K (list B)) :
  NoDup (dict_keys d0) →
  NoDup (dict_keys
    (foldl (fun res item => dict_setdefault_append (proc item) (proc2 item) res)
           d0 items)).
Proof.
  revert d0. induction items as [|x items IH]; intros d0 Hnd; simpl; [done|].
  apply IH. by apply dict_keys_upsert_NoDup.
Qed.

(** [aggregate] groups the items by their index value: under each value it
    lists, in their original order, the (converted) items that have this
    value, and it has no entry for a value that no item has; no key is
    listed twice. *)
Theorem aggregate_groups (proc : A → K) (proc2 : A → B) items :
  NoDup (dict_keys (aggregate proc proc2 items)) ∧
  ∀ k, dict_get k (aggregate proc proc2 items)
       = match filter (fun x => proc x = k) items with
         | [] => None
         | l => Some (proc2 <$> l)
         end.
Proof.
  split.
  - apply foldl_setdefault_keys_NoDup. constructor.
  - intros k. unfold aggregate. by rewrite foldl_setdefault_lookup.
Qed.

Lemma aggregate_snoc (proc : A → K) (proc2 : A → B) items x :
  aggregate proc proc2 (items ++ [x])
  = dict_setdefault_append (proc x) (proc2 x) (aggregate proc proc2 items).
Proof. unfold aggregate. by rewrite foldl_app. Qed.
End AggFacts.

Section TableFacts.
Context {A K : Type} `{EqDecision K}.
Implicit Types t : Table A K.
Implicit Types ix : pydict string (pydict K (list A)).

Lemma dict_get_None {V} (k : string) (d : pydict string V) :
  dict_get k d = None ↔ k ∉ dict_keys d.
Proof.
  rewrite <-dict_get_is_Some. apply eq_None_not_Some.
Qed.

Lemma table_new_ok (data : list A) : table_ok (table_new data : Table A K).
Proof.
  repeat split; simpl; try constructor; by intros ? ?%elem_of_nil.
Qed.

Lemma table_index_ok name f t : table_ok t → table_ok (table_index name f t).
Proof.
  intros (Hp & Hm & Hi & Hpi & Hmi). unfold table_index, dict_set.
  repeat split; simpl.
  - by apply dict_keys_upsert_NoDup.
  - done.
  - by apply dict_keys_upsert_NoDup.
  - intros n [->|Hn]%dict_keys_upsert_elem; apply dict_keys_upsert_elem;
      [by left|right; by apply Hpi].
  - intros n Hn. apply dict_keys_upsert_elem. right. by apply Hmi.
Qed.

Lemma table_index_multi_ok name f t :
  table_ok t → table_ok (table_index_multi name f t).
Proof.
  intros (Hp & Hm & Hi & Hpi & Hmi). unfold table_index_multi, dict_set.
  repeat split; simpl.
  - done.
  - by apply dict_keys_upsert_NoDup.
  - by apply dict_keys_upsert_NoDup.
  - intros n Hn. apply dict_keys_upsert_elem. right. by apply Hpi.
  - intros n [->|Hn]%dict_keys_upsert_elem; apply dict_keys_upsert_elem;
      [by left|right; by apply Hmi].
Qed.

Lemma table_index_indexed name f t :
  dict_get name (t_multi_procs t) = None →
  indexed_by name f (table_index name f t).
Proof.
  intros Hm. unfold indexed_by, table_index, dict_set; simpl.
  rewrite !dict_get_upsert, !decide_True by done. done.
Qed.

Lemma table_get_indexed name f v t :
  indexed_by name f t →
  table_get name v t = inr (filter (fun x => f x = v) (t_data t)).
Proof.
  intros (_ & _ & Hix). unfold table_get. rewrite Hix.
  destruct (aggregate_groups f id (t_data t)) as [_ Hg]. rewrite Hg.
  destruct (filter _ (t_data t)); simpl; [done|]. by rewrite list_fmap_id.
Qed.

Lemma index_add_spec name item row ix :
  name ∈ dict_keys ix →
  ∃ ix', index_add name item row ix = inr ix' ∧
    dict_keys ix' = dict_keys ix ∧
    ∀ n, dict_get n ix'
         = if decide (n = name)
           then dict_setdefault_append item row <$> dict_get name ix
           else dict_get n ix.
Proof.
  intros Hin. unfold index_add.
  destruct (dict_get name ix) as [idx|] eqn:E.
  - eexists. split; [done|]. unfold dict_set. split.
    + rewrite dict_keys_upsert. by rewrite decide_True.
    + intros n. rewrite dict_get_upsert. by case_decide.
  - apply dict_get_None in E. done.
Qed.

Lemma append_procs_spec (ps : pydict string (A → K)) row ix :
  NoDup (dict_keys ps) →
  (∀ n, n ∈ dict_keys ps → n ∈ dict_keys ix) →
  ∃ ix', append_procs ps row ix = inr ix' ∧
    dict_keys ix' = dict_keys ix ∧
    ∀ n, dict_get n ix'
         = match dict_get n ps with
           | Some f => dict_setdefault_append (f row) row <$> dict_get n ix
           | None => dict_get n ix
           end.
Proof.
  revert ix. induction ps as [|[name f] ps IH]; intros ix Hnd Hin.
  - exists ix. by repeat split.
  - unfold dict_keys in Hnd, Hin. rewrite fmap_cons in Hnd, Hin.
    cbn [fst] in Hnd, Hin. apply NoDup_cons in Hnd as [Hn Hnd].
    destruct (index_add_spec name (f row) row ix) as (ix1 & E1 & Hk1 & Hg1).
    { apply Hin. by left. }
    destruct (IH ix1 Hnd) as (ix' & E' & Hk' & Hg').
    { intros n Hn'. rewrite Hk1. apply Hin. by right. }
    exists ix'. cbn [append_procs]. rewrite E1. split; [done|].
    split; [congruence|]. intros n. rewrite Hg', Hg1. cbn [dict_get].
    destruct (decide (n = name)) as [->|Hne].
    + apply dict_get_None in Hn. by rewrite Hn.
    + by destruct (dict_get n ps).
Qed.

Lemma append_items_spec name items row ix :
  name ∈ dict_keys ix →
  ∃ ix', append_items name items row ix = inr ix' ∧
    dict_keys ix' = dict_keys ix ∧
    ∀ n, n ≠ name → dict_get n ix' = dict_get n ix.
Proof.
  revert ix. induction items as [|item items IH]; intros ix Hin.
  - exists ix. by repeat split.
  - destruct (index_add_spec name item row ix Hin) as (ix1 & E1 & Hk1 & Hg1).
    destruct (IH ix1) as (ix' & E' & Hk' & Hg'); [by rewrite Hk1|].
    exists ix'. cbn [append_items]. rewrite E1. split; [done|].
    split; [congruence|]. intros n Hne. rewrite Hg' by done.
    rewrite Hg1. by rewrite decide_False.
Qed.

Lemma append_multi_procs_spec (ps : pydict string (A → list K)) row ix :
  (∀ n, n ∈ dict_keys ps → n ∈ dict_keys ix) →
  ∃ ix', append_multi_procs ps row ix = inr ix' ∧
    dict_keys ix' = dict_keys ix ∧
    ∀ n, n ∉ dict_keys ps → dict_get n ix' = dict_get n ix.
Proof.
  revert ix. induction ps as [|[name f] ps IH]; intros ix Hin.
  - exists ix. by repeat split.
  - unfold dict_keys in Hin. rewrite fmap_cons in Hin. cbn [fst] in Hin.
    destruct (append_items_spec name (f row) row ix) as (ix1 & E1 & Hk1 & Hg1).
    { apply Hin. by left. }
    destruct (IH ix1) as (ix' & E' & Hk' & Hg').
    { intros n Hn'. rewrite Hk1. apply Hin. by right. }
    exists ix'. cbn [append_multi_procs]. rewrite E1. split; [done|].
    split; [congruence|]. intros n Hn. unfold dict_keys in Hn.
    rewrite fmap_cons in Hn. cbn [fst] in Hn.
    apply not_elem_of_cons in Hn as [Hne Hn].
    rewrite Hg' by done. by apply Hg1.
Qed.
End TableFacts.

Section TableTheorems.
Context {A K : Type} `{EqDecision K}.
Implicit Types t : Table A K.


(** [append] keeps an index built by [index] up to date: on a table whose
    indexes were all built by [index] or [index_multi], it succeeds, adds
    the row at the end of the data, and a lookup under the index name then
    gives the rows of the extended table that have the value. *)
Theorem table_append_keeps_index name (f : A → K) row t :
  table_ok t → indexed_by name f t →
  ∃ t', table_append row t = inr t' ∧
    table_ok t' ∧ indexed_by name f t' ∧
    t_data t' = (t_data t ++ [row])%list ∧
    ∀ v, table_get name v t'
         = inr (filter (fun x => f x = v) (t_data t ++ [row])%list).
Proof.
  intros (Hp & Hm & Hi & Hpi & Hmi) (Hf & Hnm & Hix).
  destruct (append_procs_spec (t_procs t) row (t_indexes t) Hp Hpi)
    as (ix1 & E1 & Hk1 & Hg1).
  destruct (append_multi_procs_spec (t_multi_procs t) row ix1)
    as (ix2 & E2 & Hk2 & Hg2).
  { intros n Hn. rewrite Hk1. by apply Hmi. }
  assert (Hind : indexed_by name f
            (mkTable (t_data t ++ [row])%list ix2 (t_procs t)
               (t_multi_procs t))).
  { split; [done|]. split; [done|]. simpl.
    rewrite Hg2 by (by apply dict_get_None). rewrite Hg1, Hf, Hix. simpl.
    by rewrite aggregate_snoc. }
  eexists. split.
  { unfold table_append. by rewrite E1, E2. }
  split; [|split; [done|split; [done|]]].
  - repeat split; simpl; try done.
    + congruence.
    + intros n Hn. rewrite Hk2, Hk1. by apply Hpi.
    + intros n Hn. rewrite Hk2, Hk1. by apply Hmi.
  - intros v. by rewrite (table_get_indexed name f v _ Hind).
Qed.
End TableTheorems.

Lemma table_append_keeps_index_witness :
  table_ok ex_table ∧ indexed_by "mod3" (fun n => n mod 3)%nat ex_table ∧
  ∃ t', table_append 7%nat ex_table = inr t' ∧
    table_ok t' ∧ indexed_by "mod3" (fun n => n mod 3)%nat t' ∧
    t_data t' = (t_data ex_table ++ [7%nat])%list ∧
    ∀ v, table_get "mod3" v t'
         = inr (filter (fun x => (x mod 3)%nat = v)
                       (t_data ex_table ++ [7%nat])%list).
Proof.
  assert (Hok : table_ok ex_table)
    by (apply table_index_ok, table_new_ok).
  assert (Hix : indexed_by "mod3" (fun n => n mod 3)%nat ex_table)
    by (by apply table_index_indexed).
  split; [exact Hok|]. split; [exact Hix|].
  exact (table_append_keeps_index "mod3" (fun n => n mod 3)%nat 7%nat
           ex_table Hok Hix).
Defined.

(** ** The unique-row writer *)

Lemma writerows_spec rows header w :
  w_header w = Some header →
  Forall (fun row => length row = length header) rows →
  ∃ w' new, writerows rows w = inr w' ∧
    w_header w' = Some header ∧
    w_file w' = (w_file w ++ new)%list ∧
    w_cache w' = list_to_set rows ∪ w_cache w ∧
    NoDup new ∧ sublist new rows ∧
    (∀ r, r ∈ new ↔ r ∈ rows ∧ r ∉ w_cache w).
Proof.
  revert w. induction rows as [|row rows IH]; intros w Hh Hlen.
  - exists w, []. rewrite app_nil_r. split_and!; try done.
    + set_solver.
    + constructor.
    + intros r. split; [by intros ?%elem_of_nil|by intros [?%elem_of_nil _]].
  - apply Forall_cons in Hlen as [Hrow Hlen]. cbn [writerows].
    unfold writerow. rewrite Hh. rewrite decide_True by done.
    destruct (decide (row ∈ w_cache w)) as [Hin|Hnin].
    + destruct (IH w Hh Hlen) as (w' & new & E & Hh' & Hf & Hc & Hnd & Hsub & Hel).
      exists w', new. split_and!; try done.
      * rewrite Hc. set_solver.
      * by apply sublist_cons.
      * intros r. rewrite Hel. set_solver.
    + set (w1 := mkWriter (w_header w) ({[row]} ∪ w_cache w) (w_file w ++ [row])).
      destruct (IH w1) as (w' & new & E & Hh' & Hf & Hc & Hnd & Hsub & Hel);
        [done..|].
      exists w', (row :: new). split_and!; try done.
      * rewrite <-E. unfold w1. by rewrite Hh.
      * rewrite Hf. simpl. by rewrite <-app_assoc.
      * rewrite Hc. simpl. set_solver.
      * constructor; [|done]. intros Hr%Hel. simpl in Hr. set_solver.
      * by apply sublist_skip.
      * intros r. rewrite elem_of_cons, Hel. simpl.
        destruct (decide (r = row)) as [->|Hne]; set_solver.
Qed.



(** The two assertions of [writerow]. *)
Theorem writerow_refuses header row w :
  (w_header w = None → ∃ msg, writerow row w = inl (AssertionError msg)) ∧
  (w_header w = Some header → length row ≠ length header →
     ∃ msg, writerow row w = inl (AssertionError msg)).
Proof.
  unfold writerow. split.
  - intros ->. eauto.
  - intros -> Hlen. rewrite decide_False by done. eauto.
Qed.

(** ** The orders of Python's comparisons *)

Lemma ascii_compare_refl a : Ascii.compare a a = Eq.
Proof. unfold Ascii.compare. apply N.compare_refl. Qed.

Lemma ascii_compare_lt_trans a b c :
  Ascii.compare a b = Lt → Ascii.compare b c = Lt → Ascii.compare a c = Lt.
Proof.
  unfold Ascii.compare. rewrite !N.compare_lt_iff. apply N.lt_trans.
Qed.

Lemma string_compare_lt_trans x y z :
  String.compare x y = Lt → String.compare y z = Lt → String.compare x z = Lt.
Proof.
  revert y z. induction x as [|a x IH]; intros [|b y] [|c z]; simpl; try done.
  destruct (Ascii.compare a b) eqn:E1; try done;
    destruct (Ascii.compare b c) eqn:E2; try done.
  - apply Ascii.compare_eq_iff in E1 as ->.
    apply Ascii.compare_eq_iff in E2 as ->.
    rewrite ascii_compare_refl. apply IH.
  - apply Ascii.compare_eq_iff in E1 as ->. by rewrite E2.
  - apply Ascii.compare_eq_iff in E2 as <-. by rewrite E1.
  - by rewrite (ascii_compare_lt_trans a b c).
Qed.

Lemma string_compare_gt_lt x y :
  String.compare x y = Gt ↔ String.compare y x = Lt.
Proof.
  rewrite (String.compare_antisym x y).
  destruct (String.compare y x); simpl; split; congruence.
Qed.

Lemma string_compare_eq x y : String.compare x y = Eq ↔ x = y.
Proof.
  split; [apply String.compare_eq_iff|]. intros ->. apply string_compare_refl.
Qed.

Lemma string_leb_iff x y :
  String.leb x y = true ↔ String.compare x y = Lt ∨ x = y.
Proof.
  unfold String.leb. destruct (String.compare x y) eqn:E.
  - apply string_compare_eq in E. naive_solver.
  - naive_solver.
  - split; [done|]. intros [?| ->]; [done|].
    by rewrite string_compare_refl in E.
Qed.

#[global] Instance string_le_trans : Transitive string_le.
Proof.
  intros x y z. unfold string_le. rewrite !string_leb_iff.
  intros [H1| ->] [H2| ->]; eauto using string_compare_lt_trans.
Qed.

#[global] Instance string_le_antisym : AntiSymm (=) string_le.
Proof. intros x y. apply String.leb_antisym. Qed.

#[global] Instance string_le_total : Total string_le.
Proof. intros x y. apply String.leb_total. Qed.

(** The pattern of every field-by-field comparison: compare the first
    fields, and go on to the rest when they are equal. *)
Lemma lex_leb_iff (x1 y1 : string) (b : bool) :
  match String.compare x1 y1 with Lt => true | Gt => false | Eq => b end = true
  ↔ String.compare x1 y1 = Lt ∨ (x1 = y1 ∧ b = true).
Proof.
  destruct (String.compare x1 y1) eqn:E.
  - apply string_compare_eq in E. naive_solver.
  - naive_solver.
  - split; [done|]. intros [?|[-> _]]; [done|].
    by rewrite string_compare_refl in E.
Qed.

Lemma string_compare_lt_irrefl x : String.compare x x ≠ Lt.
Proof. by rewrite string_compare_refl. Qed.

Lemma string_compare_lt_asym x y :
  String.compare x y = Lt → String.compare y x = Lt → False.
Proof.
  intros H1 H2. pose proof (string_compare_lt_trans _ _ _ H1 H2).
  by apply (string_compare_lt_irrefl x).
Qed.

Lemma string_compare_cases x y :
  String.compare x y = Lt ∨ x = y ∨ String.compare y x = Lt.
Proof.
  destruct (String.compare x y) eqn:E.
  - apply string_compare_eq in E. naive_solver.
  - naive_solver.
  - apply string_compare_gt_lt in E. naive_solver.
Qed.

#[global] Instance pair_le_trans : Transitive pair_le.
Proof.
  intros [x1 x2] [y1 y2] [z1 z2]. unfold pair_le, pair_leb. simpl.
  rewrite !lex_leb_iff, !string_leb_iff.
  intros [H1|[-> H1]] [H2|[-> H2]]; eauto using string_compare_lt_trans.
  right. split; [done|].
  destruct H1 as [H1| ->], H2 as [H2| ->];
    eauto using string_compare_lt_trans.
Qed.

#[global] Instance pair_le_antisym : AntiSymm (=) pair_le.
Proof.
  intros [x1 x2] [y1 y2]. unfold pair_le, pair_leb. simpl.
  rewrite !lex_leb_iff, !string_leb_iff.
  intros [H1|[-> H1]] [H2|[E2 H2]]; try subst;
    try (by destruct (string_compare_lt_irrefl _ H1));
    try (by destruct (string_compare_lt_irrefl _ H2));
    try (by destruct (string_compare_lt_asym _ _ H1 H2)).
  destruct H1 as [H1| ->], H2 as [H2|H2]; try done.
  - by destruct (string_compare_lt_asym _ _ H1 H2).
  - subst. by destruct (string_compare_lt_irrefl _ H1).
Qed.

#[global] Instance pair_le_total : Total pair_le.
Proof.
  intros [x1 x2] [y1 y2]. unfold pair_le, pair_leb. simpl.
  rewrite !lex_leb_iff, !string_leb_iff.
  destruct (string_compare_cases x1 y1) as [?|[->|?]]; [tauto| |tauto].
  destruct (string_compare_cases x2 y2) as [?|[->|?]]; tauto.
Qed.

#[global] Instance ApplicationTuple_le_trans : Transitive ApplicationTuple_le.
Proof.
  intros [x1 x2] [y1 y2] [z1 z2].
  unfold ApplicationTuple_le, ApplicationTuple_leb. simpl.
  rewrite !lex_leb_iff, !string_leb_iff.
  intros [H1|[-> H1]] [H2|[-> H2]]; eauto using string_compare_lt_trans.
  right. split; [done|].
  destruct H1 as [H1| ->], H2 as [H2| ->];
    eauto using string_compare_lt_trans.
Qed.

#[global] Instance ApplicationTuple_le_antisym :
  AntiSymm (=) ApplicationTuple_le.
Proof.
  intros [x1 x2] [y1 y2] H1 H2.
  assert ((x1, x2) = (y1, y2)) as [= -> ->]; [|done].
  by apply (anti_symm pair_le).
Qed.

#[global] Instance ApplicationTuple_le_total : Total ApplicationTuple_le.
Proof.
  intros [x1 x2] [y1 y2]. exact (total pair_le (x1, x2) (y1, y2)).
Qed.

Lemma FormulationTuple_leb_pair x y :
  FormulationTuple_leb x y = true ↔
  String.compare (ingredient x) (ingredient y) = Lt ∨
  (ingredient x = ingredient y ∧
   pair_le (form_route x, strength x) (form_route y, strength y)).
Proof. unfold FormulationTuple_leb. by rewrite lex_leb_iff. Qed.

#[global] Instance FormulationTuple_le_trans : Transitive FormulationTuple_le.
Proof.
  intros x y z. unfold FormulationTuple_le.
  rewrite !FormulationTuple_leb_pair.
  intros [H1|[E1 H1]] [H2|[E2 H2]].
  - left. by eapply string_compare_lt_trans.
  - left. by rewrite <-E2.
  - left. by rewrite E1.
  - right. split; [congruence|]. by etrans.
Qed.

#[global] Instance FormulationTuple_le_antisym :
  AntiSymm (=) FormulationTuple_le.
Proof.
  intros [x1 x2 x3] [y1 y2 y3]. unfold FormulationTuple_le.
  rewrite !FormulationTuple_leb_pair. simpl.
  intros [H1|[E1 H1]] [H2|[E2 H2]]; try subst.
  - by destruct (string_compare_lt_asym _ _ H1 H2).
  - by destruct (string_compare_lt_irrefl _ H1).
  - by destruct (string_compare_lt_irrefl _ H2).
  - pose proof (anti_symm pair_le _ _ H1 H2). by simplify_eq.
Qed.

#[global] Instance FormulationTuple_le_total : Total FormulationTuple_le.
Proof.
  intros x y. unfold FormulationTuple_le.
  rewrite !FormulationTuple_leb_pair.
  destruct (string_compare_cases (ingredient x) (ingredient y))
    as [?|[E|?]]; [tauto| |tauto].
  destruct (total pair_le (form_route x, strength x) (form_route y, strength y));
    [left|right]; right; done.
Qed.

(** ** What [sorted] returns *)
Section Sorted.
Context {A : Type} (leb : A → A → bool).
Let R : relation A := fun x y => leb x y = true.
Context `{!Total R, !Transitive R}.

Lemma insert_sorted_StronglySorted x l :
  StronglySorted R l → StronglySorted R (insert_sorted leb x l).
Proof.
  induction 1 as [|y l Hl IH Hy]; simpl.
  - repeat constructor.
  - destruct (leb x y) eqn:E.
    + constructor; [by constructor|]. constructor; [done|].
      eapply Forall_impl; [exact Hy|]. intros z Hz. by etrans.
    + constructor; [done|].
      assert (R y x) as Hyx by (destruct (total R x y); [congruence|done]).
      rewrite insert_sorted_perm. by constructor.
Qed.

Lemma py_sorted_StronglySorted l : StronglySorted R (py_sorted leb l).
Proof.
  induction l as [|x l IH]; simpl; [constructor|].
  by apply insert_sorted_StronglySorted.
Qed.

Lemma py_sorted_unique `{!AntiSymm (=) R} l1 l2 :
  l1 ≡ₚ l2 → py_sorted leb l1 = py_sorted leb l2.
Proof.
  intros Hp. apply (StronglySorted_unique R);
    [apply py_sorted_StronglySorted..|].
  by rewrite !py_sorted_perm.
Qed.

Lemma py_sorted_head `{!AntiSymm (=) R} l x :
  head (py_sorted leb l) = Some x ↔ x ∈ l ∧ ∀ y, y ∈ l → R x y.
Proof.
  pose proof (py_sorted_StronglySorted l) as Hs.
  pose proof (py_sorted_perm leb l) as Hp.
  destruct (py_sorted leb l) as [|z s] eqn:E; simpl.
  - apply Permutation_nil_l in Hp as <-. split; [done|].
    by intros [?%elem_of_nil _].
  - apply StronglySorted_inv in Hs as [_ Hz]. split.
    + intros [= <-]. split; [rewrite <-Hp; by left|].
      intros y Hy. rewrite <-Hp in Hy.
      apply elem_of_cons in Hy as [->|Hy].
      * destruct (total R z z); done.
      * by eapply Forall_forall in Hz.
    + intros [Hx Hmin]. f_equal.
      assert (R x z) by (apply Hmin; rewrite <-Hp; by left).
      rewrite <-Hp in Hx. apply elem_of_cons in Hx as [->|Hx]; [done|].
      assert (R z x) by (by eapply Forall_forall in Hz).
      by apply (anti_symm R).
Qed.
End Sorted.

(** [one_form_tuple] returns the least formulation key of the class in
    Python's tuple order, and fails (the [IndexError] of indexing an empty
    list) exactly on a class without formulation keys. *)
Theorem one_form_tuple_least c :
  (∀ ft, one_form_tuple c = Some ft ↔
         ft ∈ form_tuples c ∧
         ∀ ft', ft' ∈ form_tuples c → FormulationTuple_le ft ft') ∧
  (one_form_tuple c = None ↔ form_tuples c = ∅).
Proof.
  unfold one_form_tuple, sorted_form_tuples. split.
  - intros ft. rewrite (py_sorted_head FormulationTuple_leb).
    by setoid_rewrite elem_of_elements.
  - rewrite head_None. split.
    + intros Hnil. apply leibniz_equiv, elements_empty_inv.
      apply Permutation_nil_r. rewrite <-Hnil. symmetry.
      apply py_sorted_perm.
    + intros ->. by rewrite elements_empty.
Qed.

(** The lists [to_dict] writes are in strictly ascending order of Python's
    tuple comparison: each is sorted, has no duplicates and holds exactly
    the members of the class; the id is the class's own. *)
Theorem to_dict_sorted c r :
  to_dict c = Some r →
  eq_id c = Some (r_eq_id r) ∧
  StronglySorted FormulationTuple_le (r_form_tuples r) ∧
  NoDup (r_form_tuples r) ∧
  (∀ ft, ft ∈ r_form_tuples r ↔ ft ∈ form_tuples c) ∧
  StronglySorted ApplicationTuple_le (r_app_tuples r) ∧
  NoDup (r_app_tuples r) ∧
  (∀ a, a ∈ r_app_tuples r ↔ a ∈ app_tuples c).
Proof.
  unfold to_dict. destruct (eq_id c) as [i|]; [|done]. intros [= <-]. simpl.
  split_and!; try done.
  - apply (py_sorted_StronglySorted FormulationTuple_leb).
  - rewrite sorted_form_tuples_perm. apply NoDup_elements.
  - intros ft. by rewrite sorted_form_tuples_perm, elem_of_elements.
  - apply (py_sorted_StronglySorted ApplicationTuple_leb).
  - rewrite sorted_app_tuples_perm. apply NoDup_elements.
  - intros a. by rewrite sorted_app_tuples_perm, elem_of_elements.
Qed.

Lemma to_dict_sorted_witness :
  to_dict (mkEqClass {[ex_f2; ex_f1]} {[ex_a1]} (Some 3))
    = Some (mkClassRecord 3 [ex_f1; ex_f2] [ex_a1]) ∧
  eq_id (mkEqClass {[ex_f2; ex_f1]} {[ex_a1]} (Some 3)) = Some 3 ∧
  StronglySorted FormulationTuple_le [ex_f1; ex_f2] ∧
  NoDup [ex_f1; ex_f2] ∧
  (∀ ft, ft ∈ [ex_f1; ex_f2] ↔ ft ∈ ({[ex_f2; ex_f1]} : gset _)) ∧
  StronglySorted ApplicationTuple_le [ex_a1] ∧
  NoDup [ex_a1] ∧
  (∀ a, a ∈ [ex_a1] ↔ a ∈ ({[ex_a1]} : gset _)).
Proof.
  assert (H : to_dict (mkEqClass {[ex_f2; ex_f1]} {[ex_a1]} (Some 3))
              = Some (mkClassRecord 3 [ex_f1; ex_f2] [ex_a1]))
    by (vm_compute; reflexivity).
  split; [exact H|]. exact (to_dict_sorted _ _ H).
Defined.

Lemma form_tuple_parsed_pairs row :
  form_tuple row
  = match parsed_pairs row with
    | inl e => inl e
    | inr pairs =>
        match py_sorted pair_leb pairs with
        | [] => inl ValueError
        | ps => inr (mkFormulationTuple (join "; " ps.*1)
                       (re_sub (RLit "; ") ";" (row_df_route row))
                       (join "; " ps.*2))
        end
    end.
Proof.
  unfold form_tuple, parsed_pairs. cbv zeta.
  destruct (parse_strengths _ _ _); [done|]. by case_decide.
Qed.

(** The key does not depend on the order in which a record lists its
    ingredients: two records whose (ingredient, strength) pairs are the
    same up to order, and whose form/route texts agree once normalized,
    get the same result from [form_tuple]. *)
Theorem form_tuple_order_insensitive row1 row2 ps1 ps2 :
  parsed_pairs row1 = inr ps1 → parsed_pairs row2 = inr ps2 →
  ps1 ≡ₚ ps2 →
  re_sub (RLit "; ") ";" (row_df_route row1)
    = re_sub (RLit "; ") ";" (row_df_route row2) →
  form_tuple row1 = form_tuple row2.
Proof.
  intros H1 H2 Hp Hfr. rewrite !form_tuple_parsed_pairs, H1, H2.
  by rewrite (py_sorted_unique pair_leb ps1 ps2 Hp), Hfr.
Qed.

Lemma form_tuple_order_insensitive_witness :
  parsed_pairs ex_row_ab = inr [("AMLODIPINE", "5MG"); ("BENAZEPRIL", "10MG")] ∧
  parsed_pairs ex_row_ba = inr [("BENAZEPRIL", "10MG"); ("AMLODIPINE", "5MG")] ∧
  [("AMLODIPINE", "5MG"); ("BENAZEPRIL", "10MG")]
    ≡ₚ [("BENAZEPRIL", "10MG"); ("AMLODIPINE", "5MG")] ∧
  re_sub (RLit "; ") ";" (row_df_route ex_row_ab)
    = re_sub (RLit "; ") ";" (row_df_route ex_row_ba) ∧
  form_tuple ex_row_ab = form_tuple ex_row_ba.
Proof.
  assert (H1 : parsed_pairs ex_row_ab
               = inr [("AMLODIPINE", "5MG"); ("BENAZEPRIL", "10MG")])
    by (vm_compute; reflexivity).
  assert (H2 : parsed_pairs ex_row_ba
               = inr [("BENAZEPRIL", "10MG"); ("AMLODIPINE", "5MG")])
    by (vm_compute; reflexivity).
  assert (H3 : [("AMLODIPINE", "5MG"); ("BENAZEPRIL", "10MG")]
                 ≡ₚ [("BENAZEPRIL", "10MG"); ("AMLODIPINE", "5MG")])
    by apply perm_swap.
  assert (H4 : re_sub (RLit "; ") ";" (row_df_route ex_row_ab)
               = re_sub (RLit "; ") ";" (row_df_route ex_row_ba))
    by (vm_compute; reflexivity).
  split; [exact H1|]. split; [exact H2|]. split; [exact H3|].
  split; [exact H4|].
  exact (form_tuple_order_insensitive _ _ _ _ H1 H2 H3 H4).
Defined.

(** Outside of its two special forms (the one literal text, and a text with
    a parenthesised second list), [parse_strengths] returns exactly the
    expected number of strengths whenever it returns and more than one is
    expected. *)
Theorem parse_strengths_expected_length text n row strs :
  re_sub federal_register_re "" text ≠ special_strength →
  re_search paren_re (re_sub federal_register_re "" text) = None →
  n ≠ 1%nat →
  parse_strengths text n row = inr strs →
  length strs = n.
Proof.
  intros Hsp Hre Hn. unfold parse_strengths.
  set (t := re_sub federal_register_re "" text) in *.
  rewrite decide_False by done. rewrite Hre.
  case_decide as Helts.
  { intros [= <-]. destruct Helts; done. }
  case_decide as Hrelts.
  { by intros [= <-]. }
  destruct n as [|n]; [done|].
  case_decide as Hmod; [|done].
  set (L := length (re_split semicolon_re t)) in *.
  destruct (L `div` S n)%nat as [|s] eqn:Hdiv; [done|].
  intros [= <-]. rewrite length_fmap. unfold range_step.
  rewrite length_fmap, length_seq.
  assert (L = (S n * S s)%nat) as ->.
  { rewrite <-Hdiv. apply Nat.Div0.div_exact. done. }
  replace (S n * S s + S s - 1)%nat with (S n * S s + s)%nat by lia.
  rewrite Nat.div_add_l by lia. rewrite Nat.div_small by lia. lia.
Qed.

Lemma parse_strengths_expected_length_witness :
  re_sub federal_register_re "" "1MG;2MG;3MG;4MG" ≠ special_strength ∧
  re_search paren_re (re_sub federal_register_re "" "1MG;2MG;3MG;4MG") = None ∧
  2%nat ≠ 1%nat ∧
  parse_strengths "1MG;2MG;3MG;4MG" 2 ex_row_ab
    = inr ["1MG, 2MG"; "3MG, 4MG"] ∧
  length ["1MG, 2MG"; "3MG, 4MG"] = 2%nat.
Proof.
  assert (H1 : re_sub federal_register_re "" "1MG;2MG;3MG;4MG"
               ≠ special_strength) by (vm_compute; discriminate).
  assert (H2 : re_search paren_re
                 (re_sub federal_register_re "" "1MG;2MG;3MG;4MG") = None)
    by (vm_compute; reflexivity).
  assert (H3 : 2%nat ≠ 1%nat) by lia.
  assert (H4 : parse_strengths "1MG;2MG;3MG;4MG" 2 ex_row_ab
               = inr ["1MG, 2MG"; "3MG, 4MG"]) by (vm_compute; reflexivity).
  split; [exact H1|]. split; [exact H2|]. split; [exact H3|].
  split; [exact H4|].
  exact (parse_strengths_expected_length _ _ _ _ H1 H2 H3 H4).
Defined.

(** ** Summarizing the books *)

Lemma writerows_app rows1 rows2 w :
  writerows (rows1 ++ rows2) w
  = match writerows rows1 w with
    | inl e => inl e
    | inr w' => writerows rows2 w'
    end.
Proof.
  revert w. induction rows1 as [|r rows1 IH]; intros w; simpl; [done|].
  destruct (writerow r w); [done|]. apply IH.
Qed.

Lemma add_all_app rs1 rs2 st :
  add_all (rs1 ++ rs2) st
  = match add_all rs1 st with
    | inl e => inl e
    | inr (_, st') => add_all rs2 st'
    end.
Proof.
  revert st. induction rs1 as [|r rs1 IH]; intros st; simpl; [done|].
  unfold bind. destruct (add_tuples r.1 r.2 st) as [e|[l st1]]; [done|].
  apply IH.
Qed.

Lemma keys_of_app rows1 rows2 :
  keys_of (rows1 ++ rows2) = (keys_of rows1 ++ keys_of rows2)%list.
Proof. apply omap_app. Qed.

Lemma write_patents_writerows rows w :
  write_patents rows w = writerows (pat_cells <$> filter patent_kept rows) w.
Proof.
  revert w. induction rows as [|r rows IH]; intros w; simpl; [done|].
  rewrite filter_cons.
  destruct (decide (pat_patent_no r = "")) as [E|E].
  - destruct (decide (patent_kept r)) as [[? _]|_]; [done|]. apply IH.
  - destruct (str_endswith (pat_patent_no r) "*PED") eqn:E2.
    + destruct (decide (patent_kept r)) as [[_ ?]|_]; [congruence|]. apply IH.
    + destruct (decide (patent_kept r)) as [_|[]]; [|done].
      rewrite fmap_cons. simpl. destruct (writerow (pat_cells r) w); [done|].
      apply IH.
Qed.

Lemma writerow_header row header w :
  w_header w = Some header → length row = length header →
  ∃ w', writerow row w = inr w' ∧ w_header w' = Some header.
Proof.
  intros Hh Hlen. unfold writerow. rewrite Hh, decide_True by done.
  destruct (decide (row ∈ w_cache w)); eauto.
Qed.

Lemma read_products_spec rows st w :
  wf st → w_header w = Some prod_headers →
  Forall (fun p => ∃ ft, form_tuple (p_row p) = inr ft) rows →
  ∃ st' w', read_products rows st w = inr (st', w') ∧
            add_all (keys_of rows) st = inr (tt, st') ∧
            writerows (prod_cells <$> rows) w = inr w' ∧
            w_header w' = Some prod_headers.
Proof.
  intros Hwf Hh Hall. revert st w Hwf Hh.
  induction Hall as [|p rows [ft Hft] _ IH]; intros st w Hwf Hh.
  - by exists st, w.
  - destruct (add_tuples_spec st ft (app_tuple (p_row p)) Hwf)
      as (l & st1 & Hrun & Hwf1 & _).
    destruct (writerow_header (prod_cells p) prod_headers w Hh eq_refl)
      as (w1 & Hw1 & Hh1).
    destruct (IH st1 w1 Hwf1 Hh1) as (st' & w' & H1 & H2 & H3 & H4).
    exists st', w'. split_and!; [| | |done].
    + simpl. unfold add. rewrite Hft, Hrun, Hw1. done.
    + unfold keys_of. simpl. rewrite Hft. simpl. unfold bind.
      rewrite Hrun. done.
    + rewrite fmap_cons. simpl. rewrite Hw1. done.
Qed.

Lemma read_books_spec books st pw prw :
  wf st → w_header pw = Some pat_headers → w_header prw = Some prod_headers →
  Forall (fun p => ∃ ft, form_tuple (p_row p) = inr ft) (books ≫= fst) →
  ∃ st' pw' prw', read_books books st pw prw = inr (st', pw', prw') ∧
    add_all (keys_of (books ≫= fst)) st = inr (tt, st') ∧
    writerows (pat_cells <$> filter patent_kept (books ≫= snd)) pw = inr pw' ∧
    writerows (prod_cells <$> (books ≫= fst)) prw = inr prw'.
Proof.
  revert st pw prw.
  induction books as [|[products patents] books IH];
    intros st pw prw Hwf Hpw Hprw Hall.
  - by exists st, pw, prw.
  - rewrite bind_cons in Hall. apply Forall_app in Hall as [Hall1 Hall2].
    simpl in Hall1.
    destruct (writerows_spec (pat_cells <$> filter patent_kept patents)
                pat_headers pw Hpw)
      as (pw1 & new & Hpw1 & Hh1 & _).
    { apply Forall_fmap, Forall_forall. by intros. }
    destruct (read_products_spec products st prw Hwf Hprw Hall1)
      as (st1 & prw1 & Hrp & Hadd & Hprw1 & Hh2).
    destruct (IH st1 pw1 prw1 (add_all_wf _ _ _ _ Hwf Hadd) Hh1 Hh2 Hall2)
      as (st' & pw' & prw' & H1 & H2 & H3 & H4).
    exists st', pw', prw'. split_and!.
    + simpl. by rewrite write_patents_writerows, Hpw1, Hrp.
    + rewrite bind_cons, keys_of_app, add_all_app. simpl. by rewrite Hadd.
    + rewrite bind_cons, filter_app, fmap_app, writerows_app. simpl.
      by rewrite Hpw1.
    + rewrite bind_cons, fmap_app, writerows_app. simpl. by rewrite Hprw1.
Qed.

Lemma dump_contains st rs k1 k2 :
  wf st → dump st = Some rs → co_member st k1 k2 →
  ∃ r c, r ∈ rs ∧ to_dict c = Some r ∧ member c k1 ∧ member c k2.
Proof.
  intros Hwf Hd Hco.
  apply same_class_co_member in Hco as (l & c & [Hc (i & Hi & Hreg)] & H1 & H2);
    [|done].
  destruct (dump_total st Hwf) as (rs' & Hd' & HF).
  assert (rs' = rs) as -> by congruence.
  apply elem_of_map_to_list, list_elem_of_lookup in Hreg as [n Hn].
  destruct (Forall2_lookup_l _ _ _ _ _ HF Hn) as (r & Hr & Hrec).
  exists r, c. split; [by eapply list_elem_of_lookup_2|].
  unfold record_at in Hrec. simpl in Hrec. rewrite Hc in Hrec. done.
Qed.

(** Started on a well-formed registry (the empty one when the program is
    run), and given books whose product rows all have keys, [summarize]
    finishes.  Below its header, the patent summary holds each kept
    patent row (a patent number that is neither empty nor ends in *PED)
    exactly once, and nothing else; the product summary holds each product
    row's five columns exactly once; and in the class records no key
    occurs twice, while the two keys of each product row lie in one
    record. *)
Theorem summarize_spec books st :
  wf st →
  Forall (fun p => ∃ ft, form_tuple (p_row p) = inr ft) (books ≫= fst) →
  ∃ pats prods rs,
    summarize books st = inr (pat_headers :: pats, prod_headers :: prods, rs) ∧
    NoDup pats ∧
    (∀ cells, cells ∈ pats ↔
       ∃ r, r ∈ books ≫= snd ∧ patent_kept r ∧ cells = pat_cells r) ∧
    NoDup prods ∧
    (∀ cells, cells ∈ prods ↔ ∃ p, p ∈ books ≫= fst ∧ cells = prod_cells p) ∧
    NoDup (rs ≫= r_form_tuples) ∧ NoDup (rs ≫= r_app_tuples) ∧
    (∀ p ft, p ∈ books ≫= fst → form_tuple (p_row p) = inr ft →
       ∃ r, r ∈ rs ∧ ft ∈ r_form_tuples r ∧
            app_tuple (p_row p) ∈ r_app_tuples r).
Proof.
  intros Hwf Hall.
  destruct (read_books_spec books st (write_header pat_headers writer_new)
              (write_header prod_headers writer_new) Hwf eq_refl eq_refl Hall)
    as (st' & pw' & prw' & Hrun & Hadd & Hpw & Hprw).
  destruct (add_all_closure (keys_of (books ≫= fst)) st Hwf)
    as (st2 & Hadd2 & Hwf' & Hcl).
  assert (st2 = st') as -> by congruence.
  destruct (dump_total st' Hwf') as (rs & Hd & HF).
  destruct (writerows_spec (pat_cells <$> filter patent_kept (books ≫= snd))
              pat_headers (write_header pat_headers writer_new) eq_refl)
    as (pw2 & pats & Hpw2 & _ & Hfile1 & _ & Hnd1 & _ & Hel1).
  { apply Forall_fmap, Forall_forall. by intros. }
  destruct (writerows_spec (prod_cells <$> (books ≫= fst))
              prod_headers (write_header prod_headers writer_new) eq_refl)
    as (prw2 & prods & Hprw2 & _ & Hfile2 & _ & Hnd2 & _ & Hel2).
  { apply Forall_fmap, Forall_forall. by intros. }
  assert (pw2 = pw') as -> by congruence.
  assert (prw2 = prw') as -> by congruence.
  destruct (records_props st' (map_to_list (eq_classes st')) rs Hwf')
    as (_ & Hndf & Hnda & _); [apply NoDup_fst_map_to_list| |done|].
  { intros i l. apply elem_of_map_to_list. }
  exists pats, prods, rs. split_and!; try done.
  - unfold summarize. rewrite Hrun, Hd, Hfile1, Hfile2. done.
  - intros cells. rewrite Hel1, list_elem_of_fmap. simpl. split.
    + intros [(r & -> & [Hr Hk]%list_elem_of_filter) _]. eauto.
    + intros (r & Hr & Hk & ->). split; [|set_solver].
      exists r. split; [done|]. by apply list_elem_of_filter.
  - intros cells. rewrite Hel2, list_elem_of_fmap. simpl. split.
    + intros [(p & -> & Hp) _]. eauto.
    + intros (p & Hp & ->). split; [eauto|set_solver].
  - intros p ft Hp Hft.
    assert (Hin : (ft, app_tuple (p_row p)) ∈ keys_of (books ≫= fst)).
    { apply list_elem_of_omap. exists p. by rewrite Hft. }
    assert (Hco : co_member st' (inl ft) (inr (app_tuple (p_row p)))).
    { apply Hcl, tc_once. right. exists ft, (app_tuple (p_row p)). eauto. }
    destruct (dump_contains _ _ _ _ Hwf' Hd Hco) as (r & c & Hr & Hdict & H1 & H2).
    exists r. split; [done|]. unfold to_dict in Hdict.
    destruct (eq_id c); [|done]. simplify_eq. simpl. split.
    + by rewrite sorted_form_tuples_perm, elem_of_elements.
    + by rewrite sorted_app_tuples_perm, elem_of_elements.
Qed.

Lemma summarize_spec_witness :
  wf empty_registry ∧
  Forall (fun p => ∃ ft, form_tuple (p_row p) = inr ft) (ex_books ≫= fst) ∧
  ∃ pats prods rs,
    summarize ex_books empty_registry
    = inr (pat_headers :: pats, prod_headers :: prods, rs) ∧
    NoDup pats ∧
    (∀ cells, cells ∈ pats ↔
       ∃ r, r ∈ ex_books ≫= snd ∧ patent_kept r ∧ cells = pat_cells r) ∧
    NoDup prods ∧
    (∀ cells, cells ∈ prods ↔
       ∃ p, p ∈ ex_books ≫= fst ∧ cells = prod_cells p) ∧
    NoDup (rs ≫= r_form_tuples) ∧ NoDup (rs ≫= r_app_tuples) ∧
    (∀ p ft, p ∈ ex_books ≫= fst → form_tuple (p_row p) = inr ft →
       ∃ r, r ∈ rs ∧ ft ∈ r_form_tuples r ∧
            app_tuple (p_row p) ∈ r_app_tuples r).
Proof.
  assert (H : Forall (fun p => ∃ ft, form_tuple (p_row p) = inr ft)
                (ex_books ≫= fst)).
  { repeat constructor. eexists. vm_compute. reflexivity. }
  split; [exact empty_registry_wf|]. split; [exact H|].
  exact (summarize_spec ex_books empty_registry empty_registry_wf H).
Defined.
